(** * icns-generator: the size table, the render pipeline and the iconset
      assembly of [src/index.js], embedded in Rocq.

    Conventions of the embedding.
    - An edge length is a [Z]; the padding percentage is a binary64 number,
      the kernel's [float], and [(size * padding) / 100] and
      [contentSize * 0.2] are computed with the kernel's binary64
      multiplication and division, as JavaScript computes them.
      [Math.round] of a double is an integer, NaN or an infinity ([Num]).
    - A path is the list of its segments below the root, already split at
      the separators; [path.resolve], [path.join] and [path.extname] are
      Node's POSIX functions on that representation.
    - [String.prototype.toLowerCase] is a parameter of the functions that
      call it; the statements say what they assume of it.
    - The file system is a finite map from paths to nodes; every function
      of the module that touches it runs in a state-and-exception monad, so
      that what a failing call has already done stays visible.
    - The [sharp] image library is modelled through the part of its
      documented interface that [index.js] uses: the pipeline object records
      the requested operations, every method validates its arguments when it
      is called, and nothing is read or written until [toFile]. *)

From Stdlib Require Import ZArith QArith Qround Lia Lqa List Sorted Ascii DecimalString.
From Stdlib Require Import Floats Uint63 FloatLemmas.
From stdpp Require Import gmap strings list.

#[local] Set Warnings "-inexact-float".

Open Scope Z_scope.

(** ** JavaScript numbers *)

(** A number that [Math.round] returns, or that is computed from such a
    number and an integer: an integer, NaN, or an infinity. *)
Inductive Num :=
  | Int (z : Z)
  | NaN
  | Infinity (negative : bool).

#[global] Instance Num_eq_dec : EqDecision Num.
Proof. solve_decision. Defined.

(** The double nearest to an integer (ties to even), as the kernel's
    specification of binary64 rounds it. *)
Definition f64_nearest (z : Z) : spec_float := binary_normalize prec emax z 0 false.

(** The number that holds the integer [z]: the double nearest to it. *)
Definition f64_of_Z (z : Z) : float := SF2Prim (f64_nearest z).

(** The integer a finite double with an integral value holds. *)
Definition Num_of_SF (x : spec_float) : Num :=
  match x with
  | S754_zero _ => Int 0
  | S754_finite negative m e =>
      let v := if 0 <=? e then Z.pos m * 2 ^ e else Z.pos m / 2 ^ (- e) in
      Int (if negative then - v else v)
  | S754_infinity negative => Infinity negative
  | S754_nan => NaN
  end.

(** The result of an integer computation once it is stored in a double. *)
Definition f64_round (z : Z) : Num := Num_of_SF (f64_nearest z).

Definition f64_of_Num (n : Num) : float :=
  match n with
  | Int z => f64_of_Z z
  | NaN => nan
  | Infinity negative => if negative then neg_infinity else infinity
  end.

(** [Math.round]: the nearest integer, the upper one at a tie; NaN and the
    infinities are returned as they are. *)
Definition Math_round (x : float) : Num :=
  match Prim2SF x with
  | S754_zero _ => Int 0
  | S754_finite negative m e =>
      let m := if negative then - Z.pos m else Z.pos m in
      Int (if 0 <=? e then m * 2 ^ e else (2 * m + 2 ^ (- e)) / 2 ^ (1 - e))
  | S754_infinity negative => Infinity negative
  | S754_nan => NaN
  end.

(** [n * 2]: doubling a double is exact until it overflows. *)
Definition times_two (n : Num) : Num :=
  match n with
  | Int z => if Z.abs z <? 2 ^ 1023 then Int (z * 2) else Infinity (z <? 0)
  | NaN => NaN
  | Infinity negative => Infinity negative
  end.

(** [a - n] for an integer [a]. *)
Definition minus (a : Z) (n : Num) : Num :=
  match n with
  | Int z => f64_round (a - z)
  | NaN => NaN
  | Infinity negative => Infinity (negb negative)
  end.

(** [`${n}`] for an integral number. *)
Definition number_to_string (n : Z) : string :=
  NilZero.string_of_int (Z.to_int n).

(** ** The size table *)

Record IconSize := mkIconSize { name : string; size : Z }.

#[global] Instance IconSize_eq_dec : EqDecision IconSize.
Proof. solve_decision. Defined.

Definition sizes : list Z := [16; 32; 64; 128; 256; 512; 1024].

(** The two entries that [flatMap]'s callback builds for one base size. *)
Definition sizeEntries (size : Z) : list IconSize :=
  [ {| name := "icon_" +:+ number_to_string size +:+ "x"
                 +:+ number_to_string size +:+ ".png";
       size := size |};
    {| name := "icon_" +:+ number_to_string size +:+ "x"
                 +:+ number_to_string size +:+ "@2x.png";
       size := size * 2 |} ].

Definition allSizes : list IconSize := flat_map sizeEntries sizes.

(** ** Padding arithmetic of [createRoundedImage] *)

(** [Math.round((size * padding) / 100)] *)
Definition paddingPixels (size : Z) (padding : float) : Num :=
  Math_round ((f64_of_Z size * padding) / 100)%float.

(** [size - paddingPixels * 2] *)
Definition contentSize (size : Z) (padding : float) : Num :=
  minus size (times_two (paddingPixels size padding)).

(** [contentSize * 0.2] *)
Definition radius (size : Z) (padding : float) : float :=
  (f64_of_Num (contentSize size padding) * 0.2)%float.

(** [defaultConfig.padding] *)
Definition defaultPadding : float := 8.75%float.

(** ** Paths *)

(** An absolute, normalized path: its segments below the root. *)
Abbreviation Path := (list string).

(** A path as a caller writes it, before resolution. *)
Inductive UPath :=
  | Abs (segments : list string)
  | Rel (segments : list string).

(** Normalization as [path.resolve] and [path.join] perform it: empty and
    ["."] segments vanish, [".."] drops the segment before it (and stays
    at the root when there is none).  [acc] is the reversed result. *)
Fixpoint normalize_go (acc : list string) (segments : list string) : list string :=
  match segments with
  | [] => rev acc
  | s :: rest =>
      if bool_decide (s = "" ∨ s = ".") then normalize_go acc rest
      else if bool_decide (s = "..") then normalize_go (tail acc) rest
      else normalize_go (s :: acc) rest
  end.

Definition normalize (segments : list string) : Path := normalize_go [] segments.

(** [path.resolve(from, to)]; [cwd] is [process.cwd()], used when neither
    argument is absolute. *)
Definition path_resolve (cwd : Path) (from to : UPath) : Path :=
  match to with
  | Abs t => normalize t
  | Rel t =>
      match from with
      | Abs f => normalize (f ++ t)
      | Rel f => normalize (cwd ++ f ++ t)
      end
  end.

(** [path.join(dir, name)] for a directory that is already resolved. *)
Definition path_join (dir : Path) (name : string) : Path :=
  normalize (dir ++ [name]).

(** The text of a resolved path, as a template literal prints it. *)
Definition path_to_string (p : Path) : string :=
  "/" +:+ String.concat "/" p.

(** The suffix of [s] that starts at its last dot, if it has a dot. *)
Fixpoint from_last_dot (s : string) : option string :=
  match s with
  | EmptyString => None
  | String c rest =>
      match from_last_dot rest with
      | Some e => Some e
      | None => if bool_decide (c = "."%char) then Some s else None
      end
  end.

(** [path.extname] on a base name: from the last dot to the end; empty
    when there is no dot, when the only dot is the first character, and for
    [".."]. *)
Definition extname_base (base : string) : string :=
  match base with
  | EmptyString => ""
  | String _ rest =>
      match from_last_dot rest with
      | Some e => if bool_decide (base = "..") then "" else e
      | None => ""
      end
  end.

Definition path_extname (p : Path) : string :=
  match last p with
  | Some base => extname_base base
  | None => ""
  end.

(** [name.replace(/^icon_/, "")]. *)
Definition strip_icon_prefix (name : string) : string :=
  if String.prefix "icon_" name
  then String.substring 5 (String.length name - 5) name
  else name.

(** ** Errors *)

Inductive Error :=
  | JsError (message : string)
      (** [throw new Error(message)] in [index.js] *)
  | InvalidParameter (param expected : string) (actual : Num)
      (** sharp: "Expected <expected> for <param> but received <actual>" *)
  | FsError (code : string) (path : Path)
      (** a failed [fs] call, with its errno code *)
  | CodecError (message : string)
      (** sharp could not decode, process or encode the image *)
  | ExecError (message : string).
      (** [execSync]: the command exited with a non-zero status *)

Inductive Result (A : Type) :=
  | Ok (a : A)
  | Err (e : Error).
Arguments Ok {A} a.
Arguments Err {A} e.

(** ** The part of sharp's interface that [index.js] uses *)

Module Sharp.

Record Color := { r : Z; g : Z; b : Z; alpha : Q }.

Inductive Blend := over | dest_in.

(** The one overlay the module builds: an SVG document holding a single
    rounded rectangle (the attributes of the template literal). *)
Record Rect := { x : Num; y : Num; width : Num; height : Num; rx : float; ry : float }.
Record Svg := { svg_width : Z; svg_height : Z; rect : Rect }.

Record Overlay := { input : Svg; blend : Blend }.

(** The object passed to [extend]. *)
Record ExtendOptions :=
  { top : Num; bottom : Num; left : Num; right : Num; background : Color }.

(** One recorded request, with the arguments sharp has accepted.  [Resize]
    is the call without options: sharp's default fit is [cover] and its
    default position is the centre. *)
Inductive Op :=
  | Resize (w h : Z)
  | Extend (top bottom left right : Z) (background : Color)
  | Composite (images : list Overlay)
  | Png.

(** The pipeline object: the input file and the requests so far.
    Building it reads nothing. *)
Record t := { file : Path; ops : list Op }.

Definition request (op : Op) (s : t) : t :=
  {| file := file s; ops := ops s ++ [op] |}.

(** [sharp(input)] *)
Definition sharp (input : Path) : t := {| file := input; ops := [] |}.

(** [is.integer(n) && n > 0] *)
Definition positive_integer (n : Num) : option Z :=
  match n with
  | Int z => if 0 <? z then Some z else None
  | _ => None
  end.

(** [is.integer(n) && n >= 0] *)
Definition nonnegative_integer (n : Num) : option Z :=
  match n with
  | Int z => if 0 <=? z then Some z else None
  | _ => None
  end.

(** [.resize(width, height)]: both must be positive integers, width is
    checked first. *)
Definition resize (w h : Num) (s : t) : Result t :=
  match positive_integer w with
  | None => Err (InvalidParameter "width" "positive integer" w)
  | Some w' =>
      match positive_integer h with
      | None => Err (InvalidParameter "height" "positive integer" h)
      | Some h' => Ok (request (Resize w' h') s)
      end
  end.

(** [.extend({top, bottom, left, right, background})]: every side must
    be a non-negative integer. *)
Definition extend (o : ExtendOptions) (s : t) : Result t :=
  match nonnegative_integer (top o) with
  | None => Err (InvalidParameter "top" "positive integer" (top o))
  | Some t' =>
  match nonnegative_integer (bottom o) with
  | None => Err (InvalidParameter "bottom" "positive integer" (bottom o))
  | Some b' =>
  match nonnegative_integer (left o) with
  | None => Err (InvalidParameter "left" "positive integer" (left o))
  | Some l' =>
  match nonnegative_integer (right o) with
  | None => Err (InvalidParameter "right" "positive integer" (right o))
  | Some r' => Ok (request (Extend t' b' l' r' (background o)) s)
  end end end end.

(** [.composite([...])] *)
Definition composite (images : list Overlay) (s : t) : Result t :=
  Ok (request (Composite images) s).

(** [.png()] *)
Definition png (s : t) : Result t := Ok (request Png s).

(** Pixel dimensions of the image after one request, from the
    dimensions before it. *)
Definition dims_step (d : Z * Z) (op : Op) : Z * Z :=
  match op with
  | Resize w h => (w, h)
  | Extend t b l r _ => (fst d + l + r, snd d + t + b)
  | Composite _ => d
  | Png => d
  end.

(** Pixel dimensions of the output for a source of dimensions [d]. *)
Definition output_dims (s : t) (d : Z * Z) : Z * Z :=
  fold_left dims_step (ops s) d.

(** A region of the source image, in source pixels. *)
Record Region := { rleft : Q; rtop : Q; rwidth : Q; rheight : Q }.

(** The part of a [sw] x [sh] source that a [Resize w h] request maps
    onto the [w] x [h] output.  With fit [cover] both axes are scaled by
    the same factor, the larger of [w/sw] and [h/sh], and what overflows
    the output is cut away evenly on both sides. *)
Definition resize_region (sw sh w h : Z) : Region :=
  if w * sh <=? h * sw
  then (* the height decides the factor; columns are cut *)
    let rw := (inject_Z (w * sh) / inject_Z h)%Q in
    {| rleft := ((inject_Z sw - rw) / 2)%Q; rtop := 0;
       rwidth := rw; rheight := inject_Z sh |}
  else (* the width decides the factor; rows are cut *)
    let rh := (inject_Z (h * sw) / inject_Z w)%Q in
    {| rleft := 0; rtop := ((inject_Z sh - rh) / 2)%Q;
       rwidth := inject_Z sw; rheight := rh |}.

(** The part of the source that ends up in the output of a pipeline: that
    of its resize request. *)
Definition source_region (s : t) (sw sh : Z) : option Region :=
  match ops s with
  | Resize w h :: _ => Some (resize_region sw sh w h)
  | _ => None
  end.

(** The whole source. *)
Definition whole (sw sh : Z) : Region :=
  {| rleft := 0; rtop := 0; rwidth := inject_Z sw; rheight := inject_Z sh |}.

(** Two regions cover the same pixels. *)
Definition region_eq (a b : Region) : Prop :=
  (rleft a == rleft b)%Q ∧ (rtop a == rtop b)%Q ∧
  (rwidth a == rwidth b)%Q ∧ (rheight a == rheight b)%Q.

End Sharp.

(** ** [createRoundedImage] *)

Definition bind_result {A B} (r : Result A) (k : A → Result B) : Result B :=
  match r with
  | Ok a => k a
  | Err e => Err e
  end.

(** The SVG mask of the template literal. *)
Definition mask (size : Z) (padding : float) : Sharp.Svg :=
  {| Sharp.svg_width := size;
     Sharp.svg_height := size;
     Sharp.rect :=
       {| Sharp.x := paddingPixels size padding;
          Sharp.y := paddingPixels size padding;
          Sharp.width := contentSize size padding;
          Sharp.height := contentSize size padding;
          Sharp.rx := radius size padding;
          Sharp.ry := radius size padding |} |}.

Definition transparent : Sharp.Color :=
  {| Sharp.r := 0; Sharp.g := 0; Sharp.b := 0; Sharp.alpha := 0 |}.

(** [createRoundedImage(input, size, padding)]; the default of the third
    parameter is [createRoundedImage input size 0]. *)
Definition createRoundedImage (input : Path) (size : Z) (padding : float)
  : Result Sharp.t :=
  let paddingPixels := paddingPixels size padding in
  let contentSize := contentSize size padding in
  let svg := mask size padding in
  bind_result (Sharp.resize contentSize contentSize (Sharp.sharp input)) (λ s1,
  bind_result (Sharp.extend
                 {| Sharp.top := paddingPixels;
                    Sharp.bottom := paddingPixels;
                    Sharp.left := paddingPixels;
                    Sharp.right := paddingPixels;
                    Sharp.background := transparent |} s1) (λ s2,
  bind_result (Sharp.composite
                 [ {| Sharp.input := svg; Sharp.blend := Sharp.dest_in |} ] s2) (λ s3,
  Sharp.png s3))).

(** ** The file system *)

(** The bytes of a file. *)
Abbreviation Content := string.

Inductive Node :=
  | File (content : Content)
  | Dir.

(** The nodes below the root; the root itself always exists. *)
Abbreviation FS := (gmap Path Node).

Definition lookup_node (fs : FS) (p : Path) : option Node :=
  match p with
  | [] => Some Dir
  | _ => fs !! p
  end.

Definition parent (p : Path) : Path := removelast p.

(** State and exceptions: a computation returns a value or throws, and in
    both cases leaves the file system it has reached. *)
Definition M (A : Type) : Type := FS → Result A * FS.

Definition ret {A} (a : A) : M A := λ fs, (Ok a, fs).
Definition throw {A} (e : Error) : M A := λ fs, (Err e, fs).
Definition bind {A B} (m : M A) (k : A → M B) : M B :=
  λ fs, match m fs with
        | (Ok a, fs') => k a fs'
        | (Err e, fs') => (Err e, fs')
        end.
Definition try_catch {A} (m : M A) (handler : Error → M A) : M A :=
  λ fs, match m fs with
        | (Ok a, fs') => (Ok a, fs')
        | (Err e, fs') => handler e fs'
        end.
Definition lift {A} (r : Result A) : M A := λ fs, (r, fs).

Declare Scope fs_scope.
Delimit Scope fs_scope with fs.
Notation "x <- m ;; k" := (bind m (λ x, k))
  (at level 100, m at next level, right associativity) : fs_scope.
Notation "m ;; k" := (bind m (λ _, k))
  (at level 100, right associativity) : fs_scope.
Open Scope fs_scope.

(** [for (const a of l) body(a)] *)
Fixpoint for_of {A} (l : list A) (body : A → M unit) : M unit :=
  match l with
  | [] => ret tt
  | a :: rest => body a ;; for_of rest body
  end.

(** [fs.existsSync(p)] *)
Definition existsSync (p : Path) : M bool :=
  λ fs, (Ok (bool_decide (is_Some (lookup_node fs p))), fs).

(** [fs.mkdir(p, { recursive: true })] for the target [target]: the missing
    directories on the way to it are created from the top; a file in the
    way is an error that names the target, and what was created before it
    stays. *)
Fixpoint mkdir_recursive_go (target done : Path) (todo : list string) : M unit :=
  match todo with
  | [] => ret tt
  | s :: rest =>
      let q := done ++ [s] in
      λ fs, match fs !! q with
            | None => mkdir_recursive_go target q rest (<[q := Dir]> fs)
            | Some Dir => mkdir_recursive_go target q rest fs
            | Some (File _) =>
                (Err (FsError (match rest with [] => "EEXIST" | _ => "ENOTDIR" end) target),
                 fs)
            end
  end.

Definition mkdir_recursive (p : Path) : M unit := mkdir_recursive_go p [] p.

(** [fs.mkdir(p)] *)
Definition mkdir (p : Path) : M unit :=
  λ fs, match lookup_node fs p with
        | Some _ => (Err (FsError "EEXIST" p), fs)
        | None =>
            match lookup_node fs (parent p) with
            | Some Dir => (Ok tt, <[p := Dir]> fs)
            | Some (File _) => (Err (FsError "ENOTDIR" p), fs)
            | None => (Err (FsError "ENOENT" p), fs)
            end
        end.

(** [fs.remove(p)] of fs-extra: [p] and everything below it goes; a path
    that does not exist is not an error. *)
Definition remove (p : Path) : M unit :=
  λ fs, (Ok tt, filter (λ kv, ¬ p `prefix_of` kv.1) fs).

(** Writing a file: its directory must exist, and [p] must not be a
    directory. *)
Definition writeFile (p : Path) (c : Content) : M unit :=
  λ fs, match lookup_node fs (parent p) with
        | Some Dir =>
            match lookup_node fs p with
            | Some Dir => (Err (FsError "EISDIR" p), fs)
            | _ => (Ok tt, <[p := File c]> fs)
            end
        | Some (File _) => (Err (FsError "ENOTDIR" p), fs)
        | None => (Err (FsError "ENOENT" p), fs)
        end.

(** [fs.copyFile(src, dest)] *)
Definition copyFile (src dest : Path) : M unit :=
  λ fs, match lookup_node fs src with
        | Some (File c) => writeFile dest c fs
        | Some Dir => (Err (FsError "EISDIR" src), fs)
        | None => (Err (FsError "ENOENT" src), fs)
        end.

(** ** Configuration *)

Definition defaultSupportedFormats : list string :=
  [".png"; ".jpg"; ".jpeg"; ".webp"; ".tiff"; ".gif"; ".svg"; ".avif";
   ".heif"; ".bmp"].

Record Config := mkConfig {
  inputFile : UPath;
  iconsetDir : UPath;
  outputIcns : UPath;
  workDir : UPath;
  outputDir : UPath;
  padding : float;
  supportedFormats : list string }.

(** The object a caller passes: any property may be missing. *)
Record Options := mkOptions {
  opt_inputFile : option UPath;
  opt_iconsetDir : option UPath;
  opt_outputIcns : option UPath;
  opt_workDir : option UPath;
  opt_outputDir : option UPath;
  opt_padding : option float;
  opt_supportedFormats : option (list string) }.

(** [{}] *)
Definition no_options : Options :=
  mkOptions None None None None None None None.

(** [{ ...d, ...o }] *)
Definition spread (d : Config) (o : Options) : Config :=
  {| inputFile := default (inputFile d) (opt_inputFile o);
     iconsetDir := default (iconsetDir d) (opt_iconsetDir o);
     outputIcns := default (outputIcns d) (opt_outputIcns o);
     workDir := default (workDir d) (opt_workDir o);
     outputDir := default (outputDir d) (opt_outputDir o);
     padding := default (padding d) (opt_padding o);
     supportedFormats := default (supportedFormats d) (opt_supportedFormats o) |}.

(** ** The assembly *)

(** What running a pipeline makes of the bytes of its source. *)
Abbreviation Codec := (Content → list Sharp.Op → Result Content).

Section Run.

(** [process.cwd()] when the module is loaded. *)
Variable cwd : Path.

(** [String.prototype.toLowerCase]. *)
Variable toLowerCase : string → string.

(** What running a pipeline makes of the bytes of its source: the bytes
    of the PNG, or a failure of the codec. *)
Variable codec : Codec.

(** [execSync(`iconutil -c icns "<iconset>" -o "<output>"`)], the
    platform's icon compiler. *)
Variable iconutil : Path → Path → M unit.

Definition defaultConfig : Config :=
  {| inputFile := Rel ["icon.png"];
     iconsetDir := Rel ["icon.iconset"];
     outputIcns := Rel ["icon.icns"];
     workDir := Abs cwd;
     outputDir := Rel ["output"];
     padding := defaultPadding;
     supportedFormats := defaultSupportedFormats |}.

(** [isSupportedFormat(filePath, supportedFormats)] *)
Definition isSupportedFormat (filePath : Path) (supportedFormats : list string) : bool :=
  let ext := toLowerCase (path_extname filePath) in
  bool_decide (ext ∈ supportedFormats).

(** [pipeline.toFile(outputPath)]: the source is read, the pipeline
    runs, the result is written. *)
Definition toFile (pipeline : Sharp.t) (outputPath : Path) : M unit :=
  λ fs, match lookup_node fs (Sharp.file pipeline) with
        | Some (File source) =>
            match codec source (Sharp.ops pipeline) with
            | Ok bytes => writeFile outputPath bytes fs
            | Err e => (Err e, fs)
            end
        | Some Dir =>
            (Err (CodecError "Input file contains unsupported image format"), fs)
        | None =>
            (Err (CodecError ("Input file is missing: "
                                +:+ path_to_string (Sharp.file pipeline))), fs)
        end.

(** [generateIconset(options)] (the console output is left out). *)
Definition generateIconset (options : Options) : M Path :=
  let config := spread defaultConfig options in
  let inputPath := path_resolve cwd (workDir config) (inputFile config) in
  let outputDirPath := path_resolve cwd (workDir config) (outputDir config) in
  present <- existsSync outputDirPath ;;
  (if negb present then mkdir_recursive outputDirPath else ret tt) ;;
  let iconsetPath := path_resolve cwd (Abs outputDirPath) (iconsetDir config) in
  found <- existsSync inputPath ;;
  if negb found then
    throw (JsError ("Input file does not exist: " +:+ path_to_string inputPath))
  else if negb (isSupportedFormat inputPath (supportedFormats config)) then
    let ext := path_extname inputPath in
    throw (JsError ("Unsupported file format: " +:+ ext +:+ "
Supported formats: " +:+ String.concat ", " (supportedFormats config)))
  else
    remove iconsetPath ;;
    mkdir iconsetPath ;;
    for_of allSizes (λ entry,
      let outputPath := path_join iconsetPath (name entry) in
      rounded <- lift (createRoundedImage inputPath (size entry) (padding config)) ;;
      toFile rounded outputPath) ;;
    ret iconsetPath.

(** [generateIcns(options)] *)
Definition generateIcns (options : Options) : M Path :=
  let config := spread defaultConfig options in
  let outputDirPath := path_resolve cwd (workDir config) (outputDir config) in
  present <- existsSync outputDirPath ;;
  (if negb present then mkdir_recursive outputDirPath else ret tt) ;;
  let outputPath := path_resolve cwd (Abs outputDirPath) (outputIcns config) in
  try_catch
    (iconsetResult <- generateIconset options ;;
     iconutil iconsetResult outputPath ;;
     let plainDir := path_resolve cwd (Abs outputDirPath) (Rel ["icons"]) in
     remove plainDir ;;
     mkdir plainDir ;;
     for_of allSizes (λ entry,
       let srcFile := path_join iconsetResult (name entry) in
       let plainName := strip_icon_prefix (name entry) in
       let destFile := path_join plainDir plainName in
       copyFile srcFile destFile) ;;
     ret outputPath)
    (λ err, throw err).

End Run.

(** ** Arrays as objects: [getSupportedFormats]

    An array is an object with an identity; two variables may hold the
    same one.  The store maps the identity of each live array to its
    elements. *)

Module Arrays.

Abbreviation Store := (gmap nat (list string)).

(** The identity of the array literal in [defaultConfig]. *)
Definition defaultConfig_supportedFormats : nat := 0%nat.

(** The store once the module is loaded. *)
Definition loaded : Store :=
  {[ defaultConfig_supportedFormats := defaultSupportedFormats ]}.

(** [[...a]]: a new array with the elements of [a]. *)
Definition spread_array (a : nat) (st : Store) : nat * Store :=
  let fresh_id := fresh (dom st) in
  (fresh_id, <[fresh_id := default [] (st !! a)]> st).

(** [getSupportedFormats()] *)
Definition getSupportedFormats (st : Store) : nat * Store :=
  spread_array defaultConfig_supportedFormats st.

(** Any mutation of the array [a] by its holder ([push], [pop],
    [a[i] = v], [sort], [length = n], ...): its elements become [elems],
    no other array changes. *)
Definition mutate (a : nat) (elems : list string) (st : Store) : Store :=
  <[a := elems]> st.

End Arrays.

(** ** Notions used in the statements *)

(** The exact value of a finite double. *)
Definition f64_value (x : float) : option Q :=
  match Prim2SF x with
  | S754_zero _ => Some 0%Q
  | S754_finite negative m e =>
      let m := if negative then Z.neg m else Z.pos m in
      Some (if 0 <=? e then inject_Z (m * 2 ^ e) else m # Z.to_pos (2 ^ (- e)))
  | _ => None
  end.

(** The integer nearest to a rational, the upper one at a tie. *)
Definition nearest_integer (x : Q) : Z := Qfloor (x + (1 # 2)).

(** A double that is not below zero; the comparison of the source's
    [padding] with 0. *)
Definition not_negative (x : float) : Prop := (0 <=? x)%float = true.

(** An edge length that a double holds exactly: [Number.isSafeInteger]. *)
Definition safe_integer (z : Z) : Prop := - 2 ^ 53 < z < 2 ^ 53.

(** [n <= 0] *)
Definition nonpositive (n : Num) : Prop :=
  match n with
  | Int z => z <= 0
  | NaN => False
  | Infinity negative => negative = true
  end.

(** A sign that every value of a double computation other than NaN and the
    zeros carries. *)
Definition signed (s : bool) (x : spec_float) : Prop :=
  match x with
  | S754_zero _ => True
  | S754_infinity s' => s' = s
  | S754_nan => True
  | S754_finite s' _ _ => s' = s
  end.

(** A segment that normalization keeps. *)
Definition ordinary (s : string) : Prop := s ≠ "" ∧ s ≠ "." ∧ s ≠ "..".

#[global] Instance ordinary_dec (s : string) : Decision (ordinary s).
Proof. unfold ordinary. apply _. Defined.

(** The first statements of [generateIconset] and of [generateIcns]: the
    output directory is created when it is not there. *)
Definition ensure_output_dir (outputDirPath : Path) : M unit :=
  present <- existsSync outputDirPath ;;
  if negb present then mkdir_recursive outputDirPath else ret tt.

(** What [toLowerCase] does to the letters A to Z. *)
Definition lower_char (c : ascii) : ascii :=
  let n := nat_of_ascii c in
  if ((65 <=? n) && (n <=? 90))%nat then ascii_of_nat (n + 32) else c.

Fixpoint ascii_toLowerCase (s : string) : string :=
  match s with
  | EmptyString => EmptyString
  | String c rest => String (lower_char c) (ascii_toLowerCase rest)
  end.



(** Membership in the allowlist when case is ignored on both sides. *)
Definition listed_ignoring_case (ext : string) (formats : list string) : Prop :=
  Exists (λ f, ascii_toLowerCase f = ascii_toLowerCase ext) formats.

#[global] Instance listed_ignoring_case_dec (ext : string) (formats : list string) :
  Decision (listed_ignoring_case ext formats).
Proof. unfold listed_ignoring_case. apply _. Defined.

(** The pipeline that [createRoundedImage] requests when the padding is [p]
    pixels and the content measures [c]. *)
Definition requested_pipeline (input : Path) (size : Z) (padding : float) (p c : Z)
  : Sharp.t :=
  {| Sharp.file := input;
     Sharp.ops :=
       [ Sharp.Resize c c;
         Sharp.Extend p p p p transparent;
         Sharp.Composite
           [ {| Sharp.input := mask size padding; Sharp.blend := Sharp.dest_in |} ];
         Sharp.Png ] |}.

(** The paths that a run computes from its options. *)
Section Resolved.
Variable cwd : Path.
Variable options : Options.

Definition config : Config := spread (defaultConfig cwd) options.
Definition inputPath : Path := path_resolve cwd (workDir config) (inputFile config).
Definition outputDirPath : Path := path_resolve cwd (workDir config) (outputDir config).
Definition iconsetPath : Path := path_resolve cwd (Abs outputDirPath) (iconsetDir config).
Definition outputPath : Path := path_resolve cwd (Abs outputDirPath) (outputIcns config).
Definition plainDir : Path := path_resolve cwd (Abs outputDirPath) (Rel ["icons"]).

Definition missing_input_error : Error :=
  JsError ("Input file does not exist: " +:+ path_to_string inputPath).

Definition unsupported_format_error : Error :=
  JsError ("Unsupported file format: " +:+ path_extname inputPath +:+ "
Supported formats: " +:+ String.concat ", " (supportedFormats config)).
End Resolved.

(** One turn of the loop of [generateIconset]. *)
Definition render (codec : Codec) (input : Path) (size : Z) (padding : float)
    (outputPath : Path) : M unit :=
  rounded <- lift (createRoundedImage input size padding) ;;
  toFile codec rounded outputPath.

(** The statements of [generateIconset] after its two checks: the staging
    directory is reset and every size is rendered into it. *)
Definition stage (cwd : Path) (codec : Codec) (options : Options) : M Path :=
  remove (iconsetPath cwd options) ;;
  mkdir (iconsetPath cwd options) ;;
  for_of allSizes (λ entry,
    render codec (inputPath cwd options) (size entry) (padding (config cwd options))
      (path_join (iconsetPath cwd options) (name entry))) ;;
  ret (iconsetPath cwd options).

(** The statements of [generateIcns] after the packaging: the plain export. *)
Definition export_plain (cwd : Path) (options : Options) (iconsetResult : Path) : M unit :=
  remove (plainDir cwd options) ;;
  mkdir (plainDir cwd options) ;;
  for_of allSizes (λ entry,
    copyFile (path_join iconsetResult (name entry))
             (path_join (plainDir cwd options) (strip_icon_prefix (name entry)))).

(** ** Concrete runs *)

Module Scenario.

Definition cwd : Path := ["w"].

(** A codec that accepts every source. *)
Definition codec (source : Content) (ops : list Sharp.Op) : Result Content :=
  Ok ("png:" +:+ source).

(** An icon compiler that writes its output file. *)
Definition iconutil (iconset output : Path) : M unit :=
  writeFile output "icns".

Definition with_input (file : string) : Options :=
  mkOptions (Some (Rel [file])) None None None None None None.



Definition with_padding (p : float) : Options :=
  mkOptions None None None None None (Some p) None.

(** A work directory that holds only [a.xyz]. *)
Definition fs_xyz : FS :=
  <[ ["w"; "a.xyz"] := File "x" ]> (<[ ["w"] := Dir ]> ∅).



(** A work directory after an earlier run: the source image and a staging
    directory with a file in it. *)
Definition fs_stale : FS :=
  <[ ["w"; "output"; "icon.iconset"; "old.png"] := File "old" ]>
  (<[ ["w"; "output"; "icon.iconset"] := Dir ]>
  (<[ ["w"; "output"] := Dir ]>
  (<[ ["w"; "icon.png"] := File "src" ]>
  (<[ ["w"] := Dir ]> ∅)))).

(** A work directory with the source image only. *)
Definition fs_fresh : FS :=
  <[ ["w"; "icon.png"] := File "src" ]> (<[ ["w"] := Dir ]> ∅).

End Scenario.

(** ** The renderer before padding was added ([src/unnamed/part_000]) *)

Module Unpadded.

(** The SVG mask of the template literal: the whole canvas, rounded. *)
Definition mask (size : Z) : Sharp.Svg :=
  {| Sharp.svg_width := size;
     Sharp.svg_height := size;
     Sharp.rect :=
       {| Sharp.x := Int 0;
          Sharp.y := Int 0;
          Sharp.width := Int size;
          Sharp.height := Int size;
          Sharp.rx := (f64_of_Z size * 0.2)%float;
          Sharp.ry := (f64_of_Z size * 0.2)%float |} |}.

(** [createRoundedImage(input, size)] *)
Definition createRoundedImage (input : Path) (size : Z) : Result Sharp.t :=
  let svg := mask size in
  bind_result (Sharp.resize (Int size) (Int size) (Sharp.sharp input)) (λ s1,
  bind_result (Sharp.composite
                 [ {| Sharp.input := svg; Sharp.blend := Sharp.dest_in |} ] s1) (λ s2,
  Sharp.png s2)).

End Unpadded.

(** ** Runs with paths that overlap *)

Module Overlap.

(** The source image lies in the staging directory of an earlier run. *)
Definition source_in_staging : Options :=
  mkOptions (Some (Rel ["output"; "icon.iconset"; "icon.png"]))
    None None None None None None.

Definition fs_source_in_staging : FS :=
  <[ ["w"; "output"; "icon.iconset"; "icon.png"] := File "src" ]>
  (<[ ["w"; "output"; "icon.iconset"] := Dir ]>
  (<[ ["w"; "output"] := Dir ]>
  (<[ ["w"] := Dir ]> ∅))).

(** The staging directory is given the name of the plain export. *)
Definition staging_named_icons : Options :=
  mkOptions None (Some (Rel ["icons"])) None None None None None.

(** The packaged file is given the name of the plain export. *)
Definition output_named_icons : Options :=
  mkOptions None None (Some (Rel ["icons"])) None None None None.

End Overlap.

(** * Properties *)

(** ** Doubles that hold integers *)

Lemma digits2_pos_size (m : positive) : digits2_pos m = Pos.size m.
Proof. induction m as [m IH|m IH|]; simpl; by rewrite ?IH. Qed.

Lemma digits2_pos_bound (m : positive) (k : Z) :
  0 <= k → Z.pos m < 2 ^ k → Z.pos (digits2_pos m) <= k.
Proof.
  intros Hk Hm. rewrite digits2_pos_size.
  pose proof (Pos.size_le m) as Hle.
  apply Pos2Z.pos_le_pos in Hle. rewrite Pos2Z.inj_pow in Hle.
  change (Z.pos m~0) with (2 * Z.pos m) in Hle.
  destruct (Z.le_gt_cases (Z.pos (Pos.size m)) k) as [?|Hgt]; [done|].
  assert (2 ^ (k + 1) <= 2 ^ Z.pos (Pos.size m)) by (apply Z.pow_le_mono_r; lia).
  rewrite Z.pow_add_r in * by lia. lia.
Qed.

Lemma iter_xO_spec (m : positive) (d : positive) :
  Z.pos (Pos.iter xO m d) = Z.pos m * 2 ^ Z.pos d ∧
  Z.pos (digits2_pos (Pos.iter xO m d)) = Z.pos (digits2_pos m) + Z.pos d.
Proof.
  induction d as [|d IH] using Pos.peano_ind.
  - simpl. split; lia.
  - rewrite Pos.iter_succ. destruct IH as [IH1 IH2].
    rewrite Pos2Z.inj_succ, Z.pow_succ_r by lia. simpl digits2_pos.
    rewrite Pos2Z.inj_succ, IH2. change (Z.pos (Pos.iter xO m d)~0)
      with (2 * Z.pos (Pos.iter xO m d)). rewrite IH1. split; lia.
Qed.

(** A double whose mantissa has all its bits is stored as it is. *)
Lemma binary_round_aux_canonical (s : bool) (mz : positive) (ez : Z) :
  Z.pos (digits2_pos mz) = 53 → -1074 <= ez <= 971 →
  binary_round_aux prec emax s (Z.pos mz) ez loc_Exact = S754_finite s mz ez ∧
  valid_binary (S754_finite s mz ez) = true.
Proof.
  intros Hd He.
  assert (Hfexp : fexp prec emax (Z.pos (digits2_pos mz) + ez) = ez).
  { rewrite Hd. unfold fexp, SpecFloat.emin, prec, emax. lia. }
  split.
  - unfold binary_round_aux, shr_fexp. simpl Zdigits2. simpl shr_record_of_loc.
    rewrite Hfexp, Z.sub_diag. simpl. rewrite Hfexp, Z.sub_diag. simpl.
    destruct (Z.leb_spec ez (emax - prec)) as [_|Hgt]; [done|].
    unfold emax, prec in Hgt. lia.
  - unfold valid_binary, bounded, canonical_mantissa. rewrite Hfexp, Z.eqb_refl. simpl.
    apply Z.leb_le. unfold emax, prec. lia.
Qed.

(** The double nearest to a safe integer is that integer. *)
Lemma f64_nearest_safe (m : positive) (s : bool) :
  Z.pos m < 2 ^ 53 →
  ∃ mz ez,
    binary_round prec emax s m 0 = S754_finite s mz ez ∧
    valid_binary (S754_finite s mz ez) = true ∧
    ez <= 0 ∧ Z.pos mz = Z.pos m * 2 ^ (- ez).
Proof.
  intros Hm.
  assert (Hd : Z.pos (digits2_pos m) <= 53) by (by apply digits2_pos_bound).
  unfold binary_round.
  assert (Hfexp : fexp prec emax (Z.pos (digits2_pos m) + 0) = Z.pos (digits2_pos m) - 53).
  { unfold fexp, SpecFloat.emin, prec, emax. lia. }
  rewrite Hfexp. unfold shl_align.
  destruct (Z.pos (digits2_pos m) - 53 - 0) as [|d|d] eqn:Hsub; [|lia|].
  - assert (Hd53 : Z.pos (digits2_pos m) = 53) by lia.
    destruct (binary_round_aux_canonical s m 0 Hd53) as [-> Hvalid]; [lia|].
    exists m, 0. split_and!; [done|done|done|]. simpl. lia.
  - destruct (iter_xO_spec m d) as [Hval Hdig].
    assert (Hd53 : Z.pos (digits2_pos (Pos.iter xO m d)) = 53) by lia.
    destruct (binary_round_aux_canonical s (Pos.iter xO m d)
                (Z.pos (digits2_pos m) - 53) Hd53) as [-> Hvalid]; [lia|].
    eexists _, _. split_and!; [done|done|lia|].
    rewrite Hval. f_equal. f_equal. lia.
Qed.

Lemma Prim2SF_f64_of_Z (z : Z) :
  0 < z < 2 ^ 53 →
  ∃ mz ez,
    Prim2SF (f64_of_Z z) = S754_finite false mz ez ∧
    f64_nearest z = S754_finite false mz ez ∧
    ez <= 0 ∧ Z.pos mz = z * 2 ^ (- ez).
Proof.
  intros [Hpos Hlt]. destruct z as [|m|m]; [lia| |lia].
  destruct (f64_nearest_safe m false Hlt) as (mz & ez & Hr & Hvalid & He & Hmz).
  exists mz, ez. unfold f64_of_Z, f64_nearest. simpl binary_normalize.
  rewrite Hr. split_and!; [|done|done|done].
  by apply Prim2SF_SF2Prim.
Qed.

Lemma Num_of_SF_exact (s : bool) (mz : positive) (ez : Z) (m : positive) :
  ez <= 0 → Z.pos mz = Z.pos m * 2 ^ (- ez) →
  Num_of_SF (S754_finite s mz ez) = Int (if s then Z.neg m else Z.pos m).
Proof.
  intros He Hmz. unfold Num_of_SF.
  assert (Hv : (if 0 <=? ez then Z.pos mz * 2 ^ ez else Z.pos mz / 2 ^ (- ez)) = Z.pos m).
  { destruct (Z.leb_spec 0 ez) as [H0|Hneg].
    - replace ez with 0 in * by lia. simpl in *. lia.
    - rewrite Hmz. apply Z.div_mul. apply Z.pow_nonzero; lia. }
  rewrite Hv. by destruct s.
Qed.

(** Stored in a double, a safe integer is itself. *)
Lemma f64_round_safe (z : Z) : safe_integer z → f64_round z = Int z.
Proof.
  intros [Hlo Hhi]. unfold f64_round, f64_nearest.
  destruct z as [|m|m]; [done| |].
  - simpl binary_normalize.
    destruct (f64_nearest_safe m false Hhi) as (mz & ez & -> & _ & He & Hmz).
    by rewrite (Num_of_SF_exact false mz ez m).
  - simpl binary_normalize.
    assert (Hm : Z.pos m < 2 ^ 53) by lia.
    destruct (f64_nearest_safe m true Hm) as (mz & ez & -> & _ & He & Hmz).
    by rewrite (Num_of_SF_exact true mz ez m).
Qed.

(** ** Signs *)

Lemma binary_round_aux_signed (s : bool) (mx ex : Z) (lx : location) :
  signed s (binary_round_aux prec emax s mx ex lx).
Proof.
  unfold binary_round_aux.
  destruct (shr_fexp prec emax mx ex lx) as [mrs' e'].
  destruct (shr_fexp prec emax _ e' loc_Exact) as [mrs'' e''].
  destruct (shr_m mrs''); simpl; [done| |done].
  by destruct (Z.leb e'' (emax - prec)).
Qed.

Lemma binary_round_signed (s : bool) (m : positive) (e : Z) :
  signed s (binary_round prec emax s m e).
Proof.
  unfold binary_round. destruct (shl_align _ _ _) as [mz ez].
  apply binary_round_aux_signed.
Qed.

Lemma Num_of_SF_signed (s : bool) (x : spec_float) (v : Z) :
  signed s x → Num_of_SF x = Int v → if s then v <= 0 else 0 <= v.
Proof.
  destruct x as [s'|s'| |s' m e]; simpl; try done.
  - intros _ [= <-]. by destruct s.
  - intros -> [= <-].
    assert (0 <= (if 0 <=? e then Z.pos m * 2 ^ e else Z.pos m / 2 ^ (- e))).
    { destruct (Z.leb_spec 0 e).
      - apply Z.mul_nonneg_nonneg; [lia|apply Z.pow_nonneg; lia].
      - apply Z.div_pos; [lia|apply Z.pow_pos_nonneg; lia]. }
    destruct s; lia.
Qed.

Lemma f64_nearest_signed (z : Z) : signed (z <? 0) (f64_nearest z).
Proof. destruct z; [done| |]; apply binary_round_signed. Qed.

(** The double of a positive integer is not negative, however large the
    integer. *)
Lemma f64_of_Z_signed (z : Z) : 0 < z → signed false (Prim2SF (f64_of_Z z)).
Proof.
  intros Hz. pose proof (f64_nearest_signed z) as Hs.
  replace (z <? 0) with false in Hs by (symmetry; apply Z.ltb_ge; lia).
  unfold f64_of_Z. destruct (f64_nearest z) as [s|s| |s m e]; simpl in Hs.
  - by destruct s.
  - by subst s.
  - done.
  - subst s. unfold SF2Prim. rewrite Z_ldexp_spec, of_uint63_spec.
    pose proof (Uint63.to_Z_bounded (of_Z (Z.pos m))) as [Hlo _].
    destruct (Uint63.to_Z (of_Z (Z.pos m))) as [|n|n]; [done| |lia].
    simpl binary_normalize.
    pose proof (binary_round_signed false n 0) as Hn.
    destruct (binary_round prec emax false n 0) as [s|s| |s m' e']; simpl in *; try done.
    subst s. apply binary_round_signed.
Qed.

Lemma not_negative_signed (x : float) : not_negative x → signed false (Prim2SF x).
Proof.
  unfold not_negative. rewrite FloatAxioms.leb_spec.
  change (Prim2SF 0) with (S754_zero false).
  unfold SFleb, SFcompare. destruct (Prim2SF x) as [s|s| |s m e]; simpl; try done.
  - by destruct s.
  - by destruct s.
Qed.

Lemma SFmul_signed (x y : spec_float) :
  signed false x → signed false y → signed false (SF64mul x y).
Proof.
  destruct x as [s|s| |s m e], y as [s'|s'| |s' m' e']; simpl; try done;
    try (by intros -> ->).
  intros -> ->. apply binary_round_aux_signed.
Qed.

Lemma SFdiv_signed (x : spec_float) (m : positive) (e : Z) :
  signed false x → signed false (SF64div x (S754_finite false m e)).
Proof.
  destruct x as [s|s| |s m' e']; simpl; try done.
  - by intros ->.
  - intros ->. destruct (SFdiv_core_binary prec emax _ _ _ _) as [[mz ez] lz].
    apply binary_round_aux_signed.
Qed.

Lemma Prim2SF_100 : Prim2SF 100 = S754_finite false 7036874417766400 (-46).
Proof. reflexivity. Qed.

Lemma Math_round_signed (x : float) (p : Z) :
  signed false (Prim2SF x) → Math_round x = Int p → 0 <= p.
Proof.
  unfold Math_round. destruct (Prim2SF x) as [s|s| |s m e]; simpl; try done.
  - by intros _ [= <-].
  - intros -> [= <-]. destruct (Z.leb_spec 0 e).
    + apply Z.mul_nonneg_nonneg; [lia|apply Z.pow_nonneg; lia].
    + apply Z.div_pos; [|apply Z.pow_pos_nonneg; lia].
      assert (0 < 2 ^ (- e)) by (apply Z.pow_pos_nonneg; lia). lia.
Qed.

(** ** The padding arithmetic *)

(** A padding that is not negative takes no negative number of pixels. *)
Lemma paddingPixels_nonneg (size : Z) (padding : float) (p : Z) :
  0 < size → not_negative padding → paddingPixels size padding = Int p → 0 <= p.
Proof.
  intros Hs Hp. unfold paddingPixels. apply Math_round_signed.
  rewrite FloatAxioms.div_spec, FloatAxioms.mul_spec, Prim2SF_100.
  apply SFdiv_signed, SFmul_signed; [by apply f64_of_Z_signed|by apply not_negative_signed].
Qed.

Lemma paddingPixels_zero (size : Z) : 0 < size < 2 ^ 53 → paddingPixels size 0 = Int 0.
Proof.
  intros Hs. unfold paddingPixels, Math_round.
  rewrite FloatAxioms.div_spec, FloatAxioms.mul_spec, Prim2SF_100.
  destruct (Prim2SF_f64_of_Z size Hs) as (mz & ez & -> & _).
  reflexivity.
Qed.

Lemma contentSize_Int (size : Z) (padding : float) (c : Z) :
  contentSize size padding = Int c →
  ∃ p, paddingPixels size padding = Int p ∧ f64_round (size - p * 2) = Int c.
Proof.
  unfold contentSize. destruct (paddingPixels size padding) as [p| |s]; simpl; try done.
  destruct (Z.abs p <? 2 ^ 1023); [|done]. simpl. eauto.
Qed.

Lemma f64_round_pos (z c : Z) : z < 2 ^ 53 → f64_round z = Int c → 0 < c → c = z.
Proof.
  intros Hz Hr Hc. destruct (Z.lt_trichotomy z 0) as [Hneg|[->|Hpos]].
  - pose proof (f64_nearest_signed z) as Hs.
    replace (z <? 0) with true in Hs by (symmetry; apply Z.ltb_lt; lia).
    apply (Num_of_SF_signed true _ c Hs) in Hr. lia.
  - injection Hr as <-. lia.
  - rewrite f64_round_safe in Hr by (unfold safe_integer; lia). by injection Hr.
Qed.

(** For a positive safe edge length the content size is the very integer
    [size - 2 * paddingPixels] whenever it is positive. *)
Lemma contentSize_pos (size : Z) (padding : float) (p c : Z) :
  size < 2 ^ 53 → paddingPixels size padding = Int p → 0 <= p →
  contentSize size padding = Int c → 0 < c → c = size - p * 2.
Proof.
  intros Hs Hp Hp0 Hc Hc0.
  apply contentSize_Int in Hc as (p' & Hp' & Hr).
  rewrite Hp in Hp'. injection Hp' as <-.
  apply f64_round_pos in Hr; [done|lia|done].
Qed.

Lemma contentSize_safe (size : Z) (padding : float) (p : Z) :
  0 < size < 2 ^ 53 → paddingPixels size padding = Int p → 0 <= p → p * 2 < size →
  contentSize size padding = Int (size - p * 2).
Proof.
  intros Hs Hp Hp0 Hlt. unfold contentSize. rewrite Hp. simpl.
  assert (Hsmall : Z.abs p < 2 ^ 1023).
  { assert (2 ^ 53 < 2 ^ 1023) by (apply Z.pow_lt_mono_r; lia). lia. }
  apply Z.ltb_lt in Hsmall. rewrite Hsmall. simpl.
  apply f64_round_safe. unfold safe_integer. lia.
Qed.

(** ** The pipeline that [createRoundedImage] builds *)

Lemma createRoundedImage_accepted (input : Path) (size : Z) (padding : float) (p c : Z) :
  paddingPixels size padding = Int p → 0 <= p →
  contentSize size padding = Int c → 0 < c →
  createRoundedImage input size padding = Ok (requested_pipeline input size padding p c).
Proof.
  intros Hp Hp0 Hc Hc0. unfold createRoundedImage, Sharp.resize, Sharp.extend.
  rewrite Hc, Hp. simpl.
  apply Z.ltb_lt in Hc0. apply Z.leb_le in Hp0. rewrite Hc0. simpl. rewrite Hp0. simpl.
  reflexivity.
Qed.

Lemma createRoundedImage_rejected (input : Path) (size : Z) (padding : float) :
  nonpositive (contentSize size padding) →
  createRoundedImage input size padding
  = Err (InvalidParameter "width" "positive integer" (contentSize size padding)).
Proof.
  intros Hc. unfold createRoundedImage, Sharp.resize.
  destruct (contentSize size padding) as [c| |s]; simpl in *; try done.
  destruct (Z.ltb_spec 0 c); [lia|done].
Qed.

(** When sharp accepts the arguments, they are integers, and the pipeline
    is the requested one. *)
Lemma createRoundedImage_ok_inv (input : Path) (size : Z) (padding : float) (s : Sharp.t) :
  createRoundedImage input size padding = Ok s →
  ∃ p c, paddingPixels size padding = Int p ∧ 0 <= p ∧
         contentSize size padding = Int c ∧ 0 < c ∧
         s = requested_pipeline input size padding p c.
Proof.
  unfold createRoundedImage, Sharp.resize, Sharp.extend.
  destruct (contentSize size padding) as [c| |?] eqn:Hc; simpl; try done.
  destruct (Z.ltb_spec 0 c) as [Hc0|?]; simpl; [|done].
  destruct (paddingPixels size padding) as [p| |?] eqn:Hp; simpl; try done.
  destruct (Z.leb_spec 0 p) as [Hp0|?]; simpl; [|done].
  intros [= <-]. by exists p, c.
Qed.

Lemma output_dims_requested (input : Path) (size : Z) (padding : float) (p c : Z)
    (d : Z * Z) :
  Sharp.output_dims (requested_pipeline input size padding p c) d
  = (c + p + p, c + p + p).
Proof. reflexivity. Qed.

(** ** Rounding *)

Lemma nearest_integer_bounds (x : Q) :
  (inject_Z (nearest_integer x) - (1 # 2) <= x)%Q ∧
  (x < inject_Z (nearest_integer x) + (1 # 2))%Q.
Proof.
  unfold nearest_integer.
  pose proof (Qfloor_le (x + (1 # 2))) as Hle.
  pose proof (Qlt_floor (x + (1 # 2))) as Hlt.
  rewrite inject_Z_plus in Hlt. change (inject_Z 1) with 1%Q in Hlt.
  split; lra.
Qed.

(** [Math.round] of a finite double is the integer nearest to its value,
    the upper one at a tie. *)
Lemma Math_round_nearest (x : float) (p : Z) :
  Math_round x = Int p →
  ∃ v, f64_value x = Some v ∧ p = nearest_integer v.
Proof.
  unfold Math_round, f64_value.
  destruct (Prim2SF x) as [s|s| |s m e]; try done.
  - intros [= <-]. by exists 0%Q.
  - intros [= <-]. eexists. split; [reflexivity|].
    set (M := if s then Z.neg m else Z.pos m).
    replace (if s then - Z.pos m else Z.pos m) with M by (by destruct s).
    unfold nearest_integer. destruct (Z.leb_spec 0 e) as [He|He].
    + unfold Qfloor, inject_Z, Qplus. simpl Qnum. simpl Qden.
      change (Z.pos (1 * 2)) with 2.
      apply Z.div_unique with (r := 1); lia.
    + assert (Hpow : 0 < 2 ^ (- e)) by (apply Z.pow_pos_nonneg; lia).
      unfold Qfloor, Qplus. simpl Qnum. simpl Qden.
      rewrite Pos2Z.inj_mul, Z2Pos.id by done.
      replace (1 - e) with (Z.succ (- e)) by lia. rewrite Z.pow_succ_r by lia.
      f_equal; lia.
Qed.

(** ** The size table *)

Lemma allSizes_literal :
  allSizes =
    [ {| name := "icon_16x16.png"; size := 16 |};
      {| name := "icon_16x16@2x.png"; size := 32 |};
      {| name := "icon_32x32.png"; size := 32 |};
      {| name := "icon_32x32@2x.png"; size := 64 |};
      {| name := "icon_64x64.png"; size := 64 |};
      {| name := "icon_64x64@2x.png"; size := 128 |};
      {| name := "icon_128x128.png"; size := 128 |};
      {| name := "icon_128x128@2x.png"; size := 256 |};
      {| name := "icon_256x256.png"; size := 256 |};
      {| name := "icon_256x256@2x.png"; size := 512 |};
      {| name := "icon_512x512.png"; size := 512 |};
      {| name := "icon_512x512@2x.png"; size := 1024 |};
      {| name := "icon_1024x1024.png"; size := 1024 |};
      {| name := "icon_1024x1024@2x.png"; size := 2048 |} ].
Proof. reflexivity. Qed.

(** C3.  The planner emits exactly fourteen entries: for each base length
    [L] of the canonical list, in ascending order, [icon_LxL.png] at [L]
    and right after it [icon_LxL@2x.png] at [2L]. *)
Theorem allSizes_canonical :
  sizes = [16; 32; 64; 128; 256; 512; 1024] ∧
  StronglySorted Z.lt sizes ∧
  length allSizes = 14%nat ∧
  allSizes =
    [ {| name := "icon_16x16.png"; size := 16 |};
      {| name := "icon_16x16@2x.png"; size := 32 |};
      {| name := "icon_32x32.png"; size := 32 |};
      {| name := "icon_32x32@2x.png"; size := 64 |};
      {| name := "icon_64x64.png"; size := 64 |};
      {| name := "icon_64x64@2x.png"; size := 128 |};
      {| name := "icon_128x128.png"; size := 128 |};
      {| name := "icon_128x128@2x.png"; size := 256 |};
      {| name := "icon_256x256.png"; size := 256 |};
      {| name := "icon_256x256@2x.png"; size := 512 |};
      {| name := "icon_512x512.png"; size := 512 |};
      {| name := "icon_512x512@2x.png"; size := 1024 |};
      {| name := "icon_1024x1024.png"; size := 1024 |};
      {| name := "icon_1024x1024@2x.png"; size := 2048 |} ] ∧
  allSizes =
    flat_map (λ L, [ {| name := "icon_" +:+ number_to_string L +:+ "x"
                                  +:+ number_to_string L +:+ ".png";
                        size := L |};
                     {| name := "icon_" +:+ number_to_string L +:+ "x"
                                  +:+ number_to_string L +:+ "@2x.png";
                        size := 2 * L |} ])
             [16; 32; 64; 128; 256; 512; 1024].
Proof.
  split_and!; try reflexivity.
  unfold sizes. repeat (constructor; [|repeat (constructor; [lia|]); constructor]).
  constructor.
Qed.

(** ** The canvas *)

Lemma f64_value_of_Z (size : Z) :
  0 < size < 2 ^ 53 →
  ∃ w, f64_value (f64_of_Z size) = Some w ∧ (w == inject_Z size)%Q.
Proof.
  intros Hs. unfold f64_value.
  destruct (Prim2SF_f64_of_Z size Hs) as (mz & ez & -> & _ & He & Hmz).
  eexists. split; [reflexivity|].
  assert (Hpow : 0 < 2 ^ (- ez)) by (apply Z.pow_pos_nonneg; lia).
  destruct (Z.leb_spec 0 ez) as [H0|Hneg].
  - replace ez with 0 in * by lia. simpl in *. by rewrite Z.mul_1_r in *; rewrite Hmz.
  - unfold Qeq, inject_Z. simpl Qnum. simpl Qden. rewrite Z2Pos.id by done. lia.
Qed.

(** C4.  For a valid render configuration the padding in pixels is
    [Math.round] of the double [(size * padding) / 100], that is the integer
    nearest to the value of that double; the pipeline resizes to the
    content square of side [size - 2 * paddingPixels], extends it by
    [paddingPixels] transparent pixels on each of the four sides, and the
    canvas that results measures [size] by [size]. *)
Theorem rendered_canvas_is_square (input : Path) (size : Z) (padding : float) (p c : Z) :
  0 < size < 2 ^ 53 → not_negative padding →
  paddingPixels size padding = Int p →
  contentSize size padding = Int c → 0 < c →
  (∃ w, f64_value (f64_of_Z size) = Some w ∧ (w == inject_Z size)%Q) ∧
  Math_round ((f64_of_Z size * padding) / 100)%float = Int p ∧
  (∃ v, f64_value ((f64_of_Z size * padding) / 100)%float = Some v ∧
        (inject_Z p - (1 # 2) <= v)%Q ∧ (v < inject_Z p + (1 # 2))%Q) ∧
  0 <= p ∧
  c = size - 2 * p ∧
  ∃ s overlays,
    createRoundedImage input size padding = Ok s ∧
    Sharp.ops s =
      [ Sharp.Resize c c;
        Sharp.Extend p p p p
          {| Sharp.r := 0; Sharp.g := 0; Sharp.b := 0; Sharp.alpha := 0 |};
        Sharp.Composite overlays;
        Sharp.Png ] ∧
    (∀ d, Sharp.dims_step d (Sharp.Resize c c) = (c, c)) ∧
    (∀ d, Sharp.output_dims s d = (size, size)).
Proof.
  intros Hs Hpad Hp Hc Hc0.
  assert (Hp0 : 0 <= p) by (eapply paddingPixels_nonneg; [| |exact Hp]; [lia|done]).
  assert (Hcp : c = size - p * 2)
    by (eapply contentSize_pos; [| | |exact Hc|]; [lia|done..]).
  split; [by apply f64_value_of_Z|]. split; [exact Hp|]. split.
  { destruct (Math_round_nearest _ _ Hp) as (v & Hv & ->).
    exists v. split; [done|]. apply nearest_integer_bounds. }
  split; [done|]. split; [lia|].
  eexists _, _. split; [by apply createRoundedImage_accepted|].
  split; [reflexivity|]. split; [done|].
  intros d. rewrite output_dims_requested. f_equal; lia.
Qed.

Lemma rendered_canvas_is_square_witness :
  paddingPixels 375 9.2 = Int 34 ∧
  contentSize 375 9.2 = Int 307 ∧
  ∃ s overlays,
    createRoundedImage ["w"; "icon.png"] 375 9.2 = Ok s ∧
    Sharp.ops s
    = [ Sharp.Resize 307 307;
        Sharp.Extend 34 34 34 34
          {| Sharp.r := 0; Sharp.g := 0; Sharp.b := 0; Sharp.alpha := 0 |};
        Sharp.Composite overlays;
        Sharp.Png ] ∧
    Sharp.output_dims s (1024, 768) = (375, 375).
Proof.
  assert (Hs : 0 < 375 < 2 ^ 53) by (split; reflexivity).
  assert (Hpad : not_negative 9.2) by reflexivity.
  assert (Hp : paddingPixels 375 9.2 = Int 34) by (vm_compute; reflexivity).
  assert (Hc : contentSize 375 9.2 = Int 307) by (vm_compute; reflexivity).
  assert (Hc0 : 0 < 307) by reflexivity.
  split; [exact Hp|]. split; [exact Hc|].
  destruct (rendered_canvas_is_square ["w"; "icon.png"] 375 9.2 34 307 Hs Hpad Hp Hc Hc0)
    as (_ & _ & _ & _ & _ & s & overlays & Hok & Hops & _ & Hdims).
  exists s, overlays. split; [exact Hok|]. split; [exact Hops|]. apply Hdims.
Defined.

(** ** The mask *)

(** C5.  The mask is a rectangle at [(paddingPixels, paddingPixels)] whose
    width and height are [contentSize] and whose corner radius is the
    double [contentSize * 0.2]; it is drawn on a canvas of [size] by [size]
    and leaves [paddingPixels] on every side.  Without padding it starts at
    the origin and spans the canvas on both axes. *)
Theorem mask_geometry (input : Path) (size : Z) (padding : float) (p c : Z) :
  0 < size < 2 ^ 53 → not_negative padding →
  paddingPixels size padding = Int p →
  contentSize size padding = Int c → 0 < c →
  Math_round ((f64_of_Z size * padding) / 100)%float = Int p ∧
  c = size - 2 * p ∧
  (∃ s before after m,
     createRoundedImage input size padding = Ok s ∧
     Sharp.ops s
     = before ++ Sharp.Composite [ {| Sharp.input := m; Sharp.blend := Sharp.dest_in |} ]
              :: after ∧
     Sharp.svg_width m = size ∧ Sharp.svg_height m = size ∧
     Sharp.x (Sharp.rect m) = Int p ∧
     Sharp.y (Sharp.rect m) = Int p ∧
     Sharp.width (Sharp.rect m) = Int c ∧
     Sharp.height (Sharp.rect m) = Int c ∧
     Sharp.rx (Sharp.rect m) = (f64_of_Z c * 0.2)%float ∧
     Sharp.ry (Sharp.rect m) = (f64_of_Z c * 0.2)%float ∧
     p + c + p = Sharp.svg_width m ∧
     p + c + p = Sharp.svg_height m) ∧
  (∃ s before after m,
     createRoundedImage input size 0 = Ok s ∧
     Sharp.ops s
     = before ++ Sharp.Composite [ {| Sharp.input := m; Sharp.blend := Sharp.dest_in |} ]
              :: after ∧
     Sharp.svg_width m = size ∧ Sharp.svg_height m = size ∧
     Sharp.x (Sharp.rect m) = Int 0 ∧
     Sharp.y (Sharp.rect m) = Int 0 ∧
     Sharp.width (Sharp.rect m) = Int size ∧
     Sharp.height (Sharp.rect m) = Int size ∧
     Sharp.rx (Sharp.rect m) = (f64_of_Z size * 0.2)%float ∧
     Sharp.ry (Sharp.rect m) = (f64_of_Z size * 0.2)%float).
Proof.
  intros Hs Hpad Hp Hc Hc0.
  assert (Hp0 : 0 <= p) by (eapply paddingPixels_nonneg; [| |exact Hp]; [lia|done]).
  assert (Hcp : c = size - p * 2)
    by (eapply contentSize_pos; [| | |exact Hc|]; [lia|done..]).
  split; [exact Hp|]. split; [lia|]. split.
  - eexists _, [_; _], [_], (mask size padding). split.
    + by apply createRoundedImage_accepted.
    + split; [reflexivity|]. unfold mask, radius. simpl. rewrite Hp, Hc. simpl.
      split_and!; try reflexivity; lia.
  - pose proof (paddingPixels_zero size Hs) as Hz.
    assert (Hcz : contentSize size 0 = Int size).
    { rewrite (contentSize_safe size 0 0 Hs Hz) by lia. f_equal. lia. }
    eexists _, [_; _], [_], (mask size 0). split.
    + apply createRoundedImage_accepted; [done|lia|done|lia].
    + split; [reflexivity|]. unfold mask, radius. simpl. rewrite Hz, Hcz. simpl.
      split_and!; reflexivity.
Qed.

Lemma mask_geometry_witness :
  paddingPixels 16 8.75 = Int 1 ∧
  contentSize 16 8.75 = Int 14 ∧
  ∃ s before after m,
    createRoundedImage ["w"; "icon.png"] 16 8.75 = Ok s ∧
    Sharp.ops s
    = before ++ Sharp.Composite [ {| Sharp.input := m; Sharp.blend := Sharp.dest_in |} ]
             :: after ∧
    Sharp.rect m
    = {| Sharp.x := Int 1; Sharp.y := Int 1;
         Sharp.width := Int 14; Sharp.height := Int 14;
         Sharp.rx := 2.8000000000000003; Sharp.ry := 2.8000000000000003 |}.
Proof.
  assert (Hs : 0 < 16 < 2 ^ 53) by (split; reflexivity).
  assert (Hpad : not_negative 8.75) by reflexivity.
  assert (Hp : paddingPixels 16 8.75 = Int 1) by (vm_compute; reflexivity).
  assert (Hc : contentSize 16 8.75 = Int 14) by (vm_compute; reflexivity).
  assert (Hc0 : 0 < 14) by reflexivity.
  split; [exact Hp|]. split; [exact Hc|].
  destruct (mask_geometry ["w"; "icon.png"] 16 8.75 1 14 Hs Hpad Hp Hc Hc0)
    as (_ & _ & (s & before & after & m & Hok & Hops & _ & _ & Hx & Hy & Hw & Hh & Hrx
                 & Hry & _) & _).
  exists s, before, after, m. split; [exact Hok|]. split; [exact Hops|].
  destruct m as [sw sh [x y w h rx ry]]. simpl in *.
  rewrite Hx, Hy, Hw, Hh, Hrx, Hry. vm_compute. reflexivity.
Defined.

(** ** What the resize request keeps of the source *)

Lemma resize_region_square (sw sh c : Z) :
  0 < sw → 0 < sh → 0 < c →
  Sharp.region_eq
    (Sharp.resize_region sw sh c c)
    {| Sharp.rleft := (inject_Z (sw - Z.min sw sh) / 2)%Q;
       Sharp.rtop := (inject_Z (sh - Z.min sw sh) / 2)%Q;
       Sharp.rwidth := inject_Z (Z.min sw sh);
       Sharp.rheight := inject_Z (Z.min sw sh) |}.
Proof.
  intros Hsw Hsh Hc. unfold Sharp.resize_region, Sharp.region_eq.
  assert (Hc' : ¬ (inject_Z c == 0)%Q).
  { change 0%Q with (inject_Z 0). rewrite inject_Z_injective. lia. }
  destruct (Z.leb_spec (c * sh) (c * sw)) as [Hle|Hlt]; simpl.
  - assert (Hmin : Z.min sw sh = sh) by nia. rewrite Hmin.
    unfold Z.sub. rewrite Z.add_opp_diag_r.
    rewrite ?inject_Z_mult, ?inject_Z_plus, ?inject_Z_opp.
    repeat split; try (field; exact Hc'); reflexivity.
  - assert (Hmin : Z.min sw sh = sw) by nia. rewrite Hmin.
    unfold Z.sub. rewrite Z.add_opp_diag_r.
    rewrite ?inject_Z_mult, ?inject_Z_plus, ?inject_Z_opp.
    repeat split; try (field; exact Hc'); reflexivity.
Qed.

Lemma region_eq_trans (a b c : Sharp.Region) :
  Sharp.region_eq a b → Sharp.region_eq b c → Sharp.region_eq a c.
Proof.
  intros (H1 & H2 & H3 & H4) (G1 & G2 & G3 & G4).
  repeat split; etransitivity; eassumption.
Qed.

Lemma region_eq_sym (a b : Sharp.Region) : Sharp.region_eq a b → Sharp.region_eq b a.
Proof. intros (H1 & H2 & H3 & H4). repeat split; by symmetry. Qed.

Lemma centred_square_whole (sw sh : Z) :
  Sharp.region_eq
    {| Sharp.rleft := (inject_Z (sw - Z.min sw sh) / 2)%Q;
       Sharp.rtop := (inject_Z (sh - Z.min sw sh) / 2)%Q;
       Sharp.rwidth := inject_Z (Z.min sw sh);
       Sharp.rheight := inject_Z (Z.min sw sh) |}
    (Sharp.whole sw sh)
  ↔ sw = sh.
Proof.
  unfold Sharp.region_eq, Sharp.whole. simpl. split.
  - intros (_ & _ & Hw & Hh).
    rewrite inject_Z_injective in Hw. rewrite inject_Z_injective in Hh. lia.
  - intros ->. rewrite Z.min_id, Z.sub_diag.
    repeat split; reflexivity.
Qed.

(** C6 (amended).  The resize request asks for the content square whatever
    the source measures, so the output of that step is always square.  The
    request carries no options, and with sharp's default fit the source
    keeps its aspect ratio: what is mapped onto the square is the centred
    square of side [min sw sh] of the source, which is the whole source
    exactly when the source is square. *)
Theorem resize_covers_centred_square (input : Path) (size : Z) (padding : float)
    (c sw sh : Z) :
  0 < size → not_negative padding →
  contentSize size padding = Int c → 0 < c →
  0 < sw → 0 < sh →
  ∃ s rest region,
    createRoundedImage input size padding = Ok s ∧
    Sharp.ops s = Sharp.Resize c c :: rest ∧
    Sharp.dims_step (sw, sh) (Sharp.Resize c c) = (c, c) ∧
    Sharp.source_region s sw sh = Some region ∧
    Sharp.region_eq region
      {| Sharp.rleft := (inject_Z (sw - Z.min sw sh) / 2)%Q;
         Sharp.rtop := (inject_Z (sh - Z.min sw sh) / 2)%Q;
         Sharp.rwidth := inject_Z (Z.min sw sh);
         Sharp.rheight := inject_Z (Z.min sw sh) |} ∧
    (Sharp.region_eq region (Sharp.whole sw sh) ↔ sw = sh).
Proof.
  intros Hs Hpad Hc Hc0 Hsw Hsh.
  pose proof (resize_region_square sw sh c Hsw Hsh Hc0) as Hreg.
  destruct (contentSize_Int _ _ _ Hc) as (p & Hp & _).
  assert (Hp0 : 0 <= p) by (eapply paddingPixels_nonneg; [| |exact Hp]; done).
  eexists _, _, _. split.
  - by apply createRoundedImage_accepted.
  - split; [reflexivity|]. split; [reflexivity|]. split; [reflexivity|].
    split; [exact Hreg|]. split.
    + intros Hwhole. apply centred_square_whole.
      eapply region_eq_trans; [|exact Hwhole]. by apply region_eq_sym.
    + intros Heq. eapply region_eq_trans; [exact Hreg|]. by apply centred_square_whole.
Qed.

Lemma resize_covers_centred_square_witness :
  contentSize 16 0 = Int 16 ∧
  ∃ s region,
    createRoundedImage ["w"; "icon.png"] 16 0 = Ok s ∧
    Sharp.source_region s 200 100 = Some region ∧
    Sharp.region_eq region
      {| Sharp.rleft := 50; Sharp.rtop := 0; Sharp.rwidth := 100; Sharp.rheight := 100 |}.
Proof.
  assert (Hs : 0 < 16) by reflexivity.
  assert (Hpad : not_negative 0) by reflexivity.
  assert (Hc : contentSize 16 0 = Int 16) by (vm_compute; reflexivity).
  assert (Hc0 : 0 < 16) by reflexivity.
  assert (Hsw : 0 < 200) by reflexivity.
  assert (Hsh : 0 < 100) by reflexivity.
  split; [exact Hc|].
  destruct (resize_covers_centred_square ["w"; "icon.png"] 16 0 16 200 100
              Hs Hpad Hc Hc0 Hsw Hsh)
    as (s & rest & region & Hok & _ & _ & Hregion & Hsquare & _).
  exists s, region. split; [exact Hok|]. split; [exact Hregion|].
  destruct Hsquare as (H1 & H2 & H3 & H4).
  repeat split; [rewrite H1|rewrite H2|rewrite H3|rewrite H4]; reflexivity.
Defined.

(** C6, as stated, fails: of a source of 200 by 100 pixels the resize
    request of the 16-pixel icon keeps the middle 100 columns only, so the
    source is cropped and not mapped whole onto the square. *)
Lemma resize_crops_wide_source :
  ∃ s region,
    createRoundedImage ["w"; "icon.png"] 16 0 = Ok s ∧
    Sharp.source_region s 200 100 = Some region ∧
    (Sharp.rwidth region == 100)%Q ∧
    ¬ Sharp.region_eq region (Sharp.whole 200 100).
Proof.
  eexists _, _. split; [vm_compute; reflexivity|].
  split; [vm_compute; reflexivity|].
  split; [vm_compute; reflexivity|].
  intros (_ & _ & Hw & _). vm_compute in Hw. discriminate.
Qed.

(** ** The default run *)

Lemma default_run_arithmetic :
  Forall (λ entry, ∃ p c,
            paddingPixels (size entry) defaultPadding = Int p ∧ 0 <= p ∧
            contentSize (size entry) defaultPadding = Int c ∧ 0 < c) allSizes.
Proof.
  rewrite allSizes_literal.
  repeat (apply Forall_cons; split;
          [eexists _, _; split; [vm_compute; reflexivity|];
           split; [discriminate|]; split; [vm_compute; reflexivity|reflexivity]|]).
  apply Forall_nil_2.
Qed.

(** C9.  With the default padding of 8.75 every one of the fourteen edge
    lengths, from 16 up to 2048, leaves a positive content size, and sharp
    accepts every pipeline of a default run; the padding of each of them, as
    binary64 computes it, is the exactly rounded [size * 8.75 / 100]. *)
Theorem default_contentSize_positive :
  (∀ cwd, padding (defaultConfig cwd) = defaultPadding) ∧
  defaultPadding = 8.75%float ∧
  (∃ v, f64_value defaultPadding = Some v ∧ (v == 875 # 100)%Q) ∧
  size <$> allSizes
  = [16; 32; 32; 64; 64; 128; 128; 256; 256; 512; 512; 1024; 1024; 2048] ∧
  (λ entry, paddingPixels (size entry) defaultPadding) <$> allSizes
  = Int <$> [1; 3; 3; 6; 6; 11; 11; 22; 22; 45; 45; 90; 90; 179] ∧
  (λ entry, contentSize (size entry) defaultPadding) <$> allSizes
  = Int <$> [14; 26; 26; 52; 52; 106; 106; 212; 212; 422; 422; 844; 844; 1690] ∧
  Forall (λ entry, ∃ c, contentSize (size entry) defaultPadding = Int c ∧ 0 < c)
    allSizes ∧
  Forall (λ entry, ∀ input, ∃ p c,
            0 <= p ∧ 0 < c ∧ c + 2 * p = size entry ∧
            createRoundedImage input (size entry) defaultPadding
            = Ok (requested_pipeline input (size entry) defaultPadding p c)) allSizes ∧
  Forall (λ entry,
            paddingPixels (size entry) defaultPadding
            = Int (nearest_integer (inject_Z (size entry) * (875 # 100) / 100)))
    allSizes.
Proof.
  split_and!.
  - reflexivity.
  - reflexivity.
  - eexists. split; [vm_compute; reflexivity|]. reflexivity.
  - rewrite allSizes_literal. reflexivity.
  - vm_compute. reflexivity.
  - vm_compute. reflexivity.
  - eapply Forall_impl; [exact default_run_arithmetic|].
    intros entry (p & c & _ & _ & Hc & Hc0). eauto.
  - assert (Hsafe : Forall (λ entry, 0 < size entry < 2 ^ 53) allSizes).
    { rewrite allSizes_literal. repeat (apply Forall_cons; split; [by split|]).
      apply Forall_nil_2. }
    pose proof default_run_arithmetic as Harith.
    rewrite Forall_forall in Hsafe, Harith. apply Forall_forall. intros entry Hin input.
    destruct (Harith entry Hin) as (p & c & Hp & Hp0 & Hc & Hc0).
    exists p, c. split; [done|]. split; [done|]. split.
    + pose proof (contentSize_pos _ _ _ _ (proj2 (Hsafe entry Hin)) Hp Hp0 Hc Hc0). lia.
    + by apply createRoundedImage_accepted.
  - rewrite allSizes_literal.
    repeat (apply Forall_cons; split; [vm_compute; reflexivity|]). apply Forall_nil_2.
Qed.

(** ** Rejection of a padding that leaves no content *)

(** C1.  A call of [createRoundedImage] whose content size is not positive
    fails: sharp's [resize], the first request made of the pipeline, refuses
    the width, so no pipeline is returned.  The failure comes before anything
    is read or written: the source is read only by [toFile], and a render
    step with such a content size leaves the file system as it found it,
    whatever the codec and whatever the files. *)
Theorem nonpositive_content_rejected_by_resize (input : Path) (size : Z)
    (padding : float) :
  nonpositive (contentSize size padding) →
  Sharp.resize (contentSize size padding) (contentSize size padding) (Sharp.sharp input)
  = Err (InvalidParameter "width" "positive integer" (contentSize size padding)) ∧
  createRoundedImage input size padding
  = Err (InvalidParameter "width" "positive integer" (contentSize size padding)) ∧
  ∀ (codec : Codec) (outputPath : Path) (fs : FS),
    render codec input size padding outputPath fs
    = (Err (InvalidParameter "width" "positive integer" (contentSize size padding)), fs).
Proof.
  intros Hc.
  pose proof (createRoundedImage_rejected input size padding Hc) as Hrej.
  split_and!.
  - unfold Sharp.resize. destruct (contentSize size padding) as [c| |?]; simpl in *; try done.
    destruct (Z.ltb_spec 0 c); [lia|done].
  - exact Hrej.
  - intros codec outputPath fs. unfold render, bind, lift. by rewrite Hrej.
Qed.

Lemma nonpositive_content_rejected_by_resize_witness :
  paddingPixels 250 49.8 = Int 125 ∧
  contentSize 250 49.8 = Int 0 ∧
  createRoundedImage ["w"; "icon.png"] 250 49.8
  = Err (InvalidParameter "width" "positive integer" (Int 0)).
Proof.
  assert (Hp : paddingPixels 250 49.8 = Int 125) by (vm_compute; reflexivity).
  assert (Hc : contentSize 250 49.8 = Int 0) by (vm_compute; reflexivity).
  assert (Hn : nonpositive (contentSize 250 49.8)) by (rewrite Hc; simpl; discriminate).
  split; [exact Hp|]. split; [exact Hc|].
  pose proof (proj1 (proj2
                (nonpositive_content_rejected_by_resize ["w"; "icon.png"] 250 49.8 Hn)))
    as Hrej.
  rewrite Hc in Hrej. exact Hrej.
Defined.

(** ** The renderer with and without padding *)

(** With a padding of 0 the renderer asks for what the renderer without
    padding asked for, a resize to the edge length and the same mask, with
    an extension by zero pixels in between. *)
Theorem padding_zero_is_unpadded (input : Path) (size : Z) :
  0 < size < 2 ^ 53 →
  ∃ s s' overlays,
    createRoundedImage input size 0 = Ok s ∧
    Unpadded.createRoundedImage input size = Ok s' ∧
    Sharp.file s = Sharp.file s' ∧
    Sharp.ops s' = [Sharp.Resize size size; Sharp.Composite overlays; Sharp.Png] ∧
    Sharp.ops s
    = [ Sharp.Resize size size;
        Sharp.Extend 0 0 0 0 transparent;
        Sharp.Composite overlays;
        Sharp.Png ] ∧
    ∀ d, Sharp.output_dims s d = Sharp.output_dims s' d.
Proof.
  intros Hs.
  pose proof (paddingPixels_zero size Hs) as Hp.
  assert (Hc : contentSize size 0 = Int size).
  { rewrite (contentSize_safe size 0 0 Hs Hp) by lia. f_equal. lia. }
  eexists _, _, _. split.
  { apply createRoundedImage_accepted; [done|lia|done|lia]. }
  split.
  { unfold Unpadded.createRoundedImage, Sharp.resize. simpl.
    destruct (Z.ltb_spec 0 size) as [_|?]; [|lia]. reflexivity. }
  unfold requested_pipeline, mask, radius, Unpadded.mask, Sharp.output_dims. simpl.
  rewrite Hc, Hp. simpl. split_and!; try reflexivity.
  intros d. f_equal; lia.
Qed.

Lemma padding_zero_is_unpadded_witness :
  ∃ s s',
    createRoundedImage ["w"; "icon.png"] 32 0 = Ok s ∧
    Unpadded.createRoundedImage ["w"; "icon.png"] 32 = Ok s' ∧
    Sharp.output_dims s (640, 480) = (32, 32) ∧
    Sharp.output_dims s' (640, 480) = (32, 32).
Proof.
  assert (Hs : 0 < 32 < 2 ^ 53) by (split; reflexivity).
  destruct (padding_zero_is_unpadded ["w"; "icon.png"] 32 Hs)
    as (s & s' & overlays & Hok & Hok' & _ & Hops' & Hops & Hdims).
  exists s, s'. split; [exact Hok|]. split; [exact Hok'|].
  rewrite Hdims. unfold Sharp.output_dims. rewrite Hops'. split; reflexivity.
Defined.

(** ** Paddings that sharp refuses *)

(** A padding that is not a number, which is what [parseFloat] makes of a
    [--padding] argument that does not start with a number, is refused for
    every edge length: the content size is NaN, and [resize] wants a
    positive integer. *)
Theorem nan_padding_rejected (input : Path) (size : Z) :
  paddingPixels size nan = NaN ∧
  contentSize size nan = NaN ∧
  createRoundedImage input size nan
  = Err (InvalidParameter "width" "positive integer" NaN).
Proof.
  assert (Hp : paddingPixels size nan = NaN).
  { unfold paddingPixels, Math_round.
    rewrite FloatAxioms.div_spec, FloatAxioms.mul_spec.
    change (Prim2SF nan) with S754_nan.
    by destruct (Prim2SF (f64_of_Z size)) as [?|?| |? ? ?]. }
  assert (Hc : contentSize size nan = NaN) by (unfold contentSize; by rewrite Hp).
  split; [exact Hp|]. split; [exact Hc|].
  unfold createRoundedImage, Sharp.resize. by rewrite Hc.
Qed.

(** A padding that comes out as a negative number of pixels while the
    content size is positive passes [resize] and is refused by [extend],
    which wants sides that are not negative. *)
Theorem negative_padding_rejected_by_extend (input : Path) (size : Z) (padding : float)
    (p c : Z) :
  paddingPixels size padding = Int p → p < 0 →
  contentSize size padding = Int c → 0 < c →
  createRoundedImage input size padding
  = Err (InvalidParameter "top" "positive integer" (Int p)).
Proof.
  intros Hp Hp0 Hc Hc0. unfold createRoundedImage, Sharp.resize, Sharp.extend.
  rewrite Hc, Hp. simpl.
  apply Z.ltb_lt in Hc0. rewrite Hc0. simpl.
  destruct (Z.leb_spec 0 p); [lia|done].
Qed.

Lemma negative_padding_rejected_by_extend_witness :
  paddingPixels 16 (-8.75) = Int (-1) ∧
  contentSize 16 (-8.75) = Int 18 ∧
  createRoundedImage ["w"; "icon.png"] 16 (-8.75)
  = Err (InvalidParameter "top" "positive integer" (Int (-1))).
Proof.
  assert (Hp : paddingPixels 16 (-8.75) = Int (-1)) by (vm_compute; reflexivity).
  assert (Hc : contentSize 16 (-8.75) = Int 18) by (vm_compute; reflexivity).
  split; [exact Hp|]. split; [exact Hc|].
  apply (negative_padding_rejected_by_extend ["w"; "icon.png"] 16 (-8.75) (-1) 18);
    [exact Hp|reflexivity|exact Hc|reflexivity].
Defined.

(** ** Paths *)

Lemma normalize_go_ordinary (acc segments : list string) :
  Forall ordinary segments → normalize_go acc segments = rev acc ++ segments.
Proof.
  revert acc. induction segments as [|s rest IH]; intros acc Hall; simpl.
  - by rewrite app_nil_r.
  - apply Forall_cons in Hall as [(H1 & H2 & H3) Hrest].
    rewrite bool_decide_eq_false_2 by (intros [?|?]; done).
    rewrite bool_decide_eq_false_2 by done.
    rewrite IH by done. simpl. by rewrite <- app_assoc.
Qed.

Lemma normalize_go_normal (acc segments : list string) :
  Forall ordinary acc → Forall ordinary (normalize_go acc segments).
Proof.
  revert acc. induction segments as [|s rest IH]; intros acc Hacc; simpl.
  - by apply Forall_rev.
  - case_bool_decide as H1; [by apply IH|].
    case_bool_decide as H2.
    + apply IH. destruct acc; [done|]. by apply Forall_cons in Hacc as [_ ?].
    + apply IH. apply Forall_cons. split; [|done].
      unfold ordinary. naive_solver.
Qed.

Lemma path_resolve_normal (cwd : Path) (from to : UPath) :
  Forall ordinary (path_resolve cwd from to).
Proof. destruct to, from; by apply normalize_go_normal. Qed.

Lemma path_join_ordinary (dir : Path) (n : string) :
  Forall ordinary dir → ordinary n → path_join dir n = dir ++ [n].
Proof.
  intros Hdir Hn. unfold path_join, normalize.
  rewrite normalize_go_ordinary; [done|].
  apply Forall_app. split; [done|]. by apply Forall_singleton.
Qed.

Lemma snoc_ne_self (p : Path) (n : string) : p ++ [n] ≠ p.
Proof.
  intros Heq. apply (f_equal length) in Heq.
  rewrite length_app in Heq. simpl in Heq. lia.
Qed.

(** ** Lower case and the allowlist *)








(** ** The file system *)

Lemma lookup_node_snoc (fs : FS) (p : Path) (n : string) :
  lookup_node fs (p ++ [n]) = fs !! (p ++ [n]).
Proof. by destruct p. Qed.

Lemma lookup_node_insert_ne (fs : FS) (p q : Path) (n : Node) :
  p ≠ q → lookup_node (<[q := n]> fs) p = lookup_node fs p.
Proof. intros Hne. destruct p; [done|]. simpl. by rewrite lookup_insert_ne. Qed.

Lemma lookup_removed (p q : Path) (fs : FS) :
  p `prefix_of` q → filter (λ kv : Path * Node, ¬ p `prefix_of` kv.1) fs !! q = None.
Proof.
  intros Hpre. apply map_lookup_filter_None_2. right. intros x _ Hno. by apply Hno.
Qed.

Lemma lookup_kept (p q : Path) (fs : FS) :
  ¬ p `prefix_of` q → filter (λ kv : Path * Node, ¬ p `prefix_of` kv.1) fs !! q = fs !! q.
Proof.
  intros Hpre. destruct (fs !! q) as [x|] eqn:Hq.
  - by apply map_lookup_filter_Some_2.
  - apply map_lookup_filter_None_2. by left.
Qed.

Lemma for_of_cons {A} (a : A) (l : list A) (body : A → M unit) (fs : FS) :
  for_of (a :: l) body fs =
  match body a fs with
  | (Ok _, fs') => for_of l body fs'
  | (Err e, fs') => (Err e, fs')
  end.
Proof. reflexivity. Qed.

(** [mkdir -p] only adds directories, and only on the way to its target. *)
Lemma mkdir_recursive_go_grows (target done todo : list string) (fs fs' : FS)
    (r : Result unit) :
  mkdir_recursive_go target done todo fs = (r, fs') →
  fs ⊆ fs' ∧
  (∀ p, fs !! p = None → is_Some (fs' !! p) →
        fs' !! p = Some Dir ∧ p `prefix_of` (done ++ todo)) ∧
  (r = Ok tt ∨ ∃ code, r = Err (FsError code target)).
Proof.
  revert done fs. induction todo as [|s rest IH]; intros done fs Hrun; simpl in Hrun.
  - injection Hrun as <- <-. split; [done|]. split; [|by left].
    intros p Hnone [x Hx]. congruence.
  - destruct (fs !! (done ++ [s])) as [[c|]|] eqn:Hq.
    + injection Hrun as <- <-. split; [done|]. split; [|right; eauto].
      intros p Hnone [x Hx]. congruence.
    + apply IH in Hrun as (Hsub & Hnew & Hr).
      split; [done|]. split; [|done].
      intros p Hnone Hsome. rewrite <- app_assoc in Hnew. by apply Hnew.
    + apply IH in Hrun as (Hsub & Hnew & Hr).
      split; [|split; [|done]].
      * etrans; [|exact Hsub]. by apply insert_subseteq.
      * intros p Hnone Hsome.
        destruct (decide (p = done ++ [s])) as [->|Hne].
        -- split.
           ++ eapply lookup_weaken; [|exact Hsub]. apply lookup_insert_eq.
           ++ exists rest. by rewrite <- app_assoc.
        -- rewrite <- app_assoc in Hnew. apply Hnew; [|done].
           by rewrite lookup_insert_ne.
Qed.

Lemma ensure_output_dir_grows (out : Path) (fs fs' : FS) (r : Result unit) :
  ensure_output_dir out fs = (r, fs') →
  fs ⊆ fs' ∧
  (∀ p, fs !! p = None → is_Some (fs' !! p) → fs' !! p = Some Dir ∧ p `prefix_of` out) ∧
  (r = Ok tt ∨ ∃ code, r = Err (FsError code out)) ∧
  (is_Some (lookup_node fs out) → r = Ok tt ∧ fs' = fs).
Proof.
  unfold ensure_output_dir, bind, existsSync. intros Hrun.
  case_bool_decide as Hex; simpl in Hrun.
  - injection Hrun as <- <-. split_and!; [done| |by left|done].
    intros p Hnone [x Hx]. congruence.
  - apply mkdir_recursive_go_grows in Hrun as (Hsub & Hnew & Hr).
    split_and!; [done|done|done|]. intros Hsome. done.
Qed.

Lemma mkdir_outcome (p : Path) (fs fs' : FS) (r : Result unit) :
  mkdir p fs = (r, fs') →
  (r = Ok tt ∧ fs' = <[p := Dir]> fs)
  ∨ ((∃ code, r = Err (FsError code p)) ∧ fs' = fs).
Proof.
  unfold mkdir. intros Hrun.
  destruct (lookup_node fs p) as [n|] eqn:Hp.
  - injection Hrun as <- <-. right. eauto.
  - destruct (lookup_node fs (parent p)) as [[c|]|];
      injection Hrun as <- <-; [right; eauto|left; done|right; eauto].
Qed.

Lemma copyFile_outcome (src dest : Path) (fs fs' : FS) :
  copyFile src dest fs = (Ok tt, fs') →
  ∃ c, lookup_node fs src = Some (File c) ∧ fs' = <[dest := File c]> fs.
Proof.
  unfold copyFile, writeFile. intros Hrun.
  destruct (lookup_node fs src) as [[c|]|]; [|done|done].
  exists c. split; [done|].
  destruct (lookup_node fs (parent dest)) as [[?|]|]; [done| |done].
  destruct (lookup_node fs dest) as [[?|]|]; by injection Hrun.
Qed.

(** A loop of copies whose destinations are distinct and never a source:
    every destination ends with the bytes its source had at the start, and
    nothing else changes. *)
Lemma copy_loop (l : list IconSize) (src dest : IconSize → Path) (fs fs' : FS) :
  for_of l (λ entry, copyFile (src entry) (dest entry)) fs = (Ok tt, fs') →
  (∀ e e', e ∈ l → e' ∈ l → src e ≠ dest e') →
  NoDup (dest <$> l) →
  (∀ e, e ∈ l →
     ∃ c, lookup_node fs (src e) = Some (File c) ∧ fs' !! dest e = Some (File c)) ∧
  (∀ q, q ∉ dest <$> l → fs' !! q = fs !! q).
Proof.
  revert fs. induction l as [|a l IH]; intros fs Hrun Hapart Hnodup.
  - injection Hrun as <-. split; [|done]. intros e He. by apply elem_of_nil in He.
  - rewrite for_of_cons in Hrun.
    destruct (copyFile (src a) (dest a) fs) as [[[]|err] fs1] eqn:Hcopy; [|done].
    apply copyFile_outcome in Hcopy as (c & Hsrc & ->).
    rewrite fmap_cons in Hnodup. apply NoDup_cons in Hnodup as [Hfresh Hnodup].
    destruct (IH _ Hrun) as [Hcopied Hother]; [|done|].
    { intros e e' He He'. apply Hapart; apply elem_of_cons; by right. }
    split.
    + intros e [->|He]%elem_of_cons.
      * exists c. split; [done|]. rewrite Hother by done. apply lookup_insert_eq.
      * destruct (Hcopied e He) as (c' & Hs & Hd). exists c'. split; [|done].
        rewrite lookup_node_insert_ne in Hs; [done|].
        apply Hapart; apply elem_of_cons; [by right|by left].
    + intros q Hq. rewrite fmap_cons in Hq. apply not_elem_of_cons in Hq as [Hne Hq].
      rewrite Hother by done. by rewrite lookup_insert_ne.
Qed.

(** ** The fourteen names *)

Lemma allSizes_first :
  allSizes = {| name := "icon_16x16.png"; size := 16 |} :: tail allSizes.
Proof. reflexivity. Qed.

Lemma names_ordinary : Forall (λ e, ordinary (name e)) allSizes.
Proof. apply (bool_decide_unpack _). vm_compute. exact I. Qed.

Lemma plain_names_ordinary : Forall (λ e, ordinary (strip_icon_prefix (name e))) allSizes.
Proof. apply (bool_decide_unpack _). vm_compute. exact I. Qed.

Lemma plain_names_distinct : NoDup ((λ e, strip_icon_prefix (name e)) <$> allSizes).
Proof. apply (bool_decide_unpack _). vm_compute. exact I. Qed.

Lemma names_not_plain :
  Forall (λ e, Forall (λ e', name e ≠ strip_icon_prefix (name e')) allSizes) allSizes.
Proof. apply (bool_decide_unpack _). vm_compute. exact I. Qed.

(** ** The steps of a run *)

(** One step of symbolic execution: case analysis on the outcome of the
    innermost computation that the goal is waiting for. *)
Ltac run_step :=
  match goal with
  | |- context [ match ?x with pair _ _ => _ end ] =>
      lazymatch x with
      | context [ match _ with pair _ _ => _ end ] => fail
      | _ => destruct x as [[?|?] ?]; try done
      end
  end.

Lemma generateIconset_steps (cwd : Path) (toLowerCase : string → string) (codec : Codec)
    (options : Options) (fs : FS) :
  generateIconset cwd toLowerCase codec options fs =
  match ensure_output_dir (outputDirPath cwd options) fs with
  | (Err e, fs1) => (Err e, fs1)
  | (Ok _, fs1) =>
      if bool_decide (is_Some (lookup_node fs1 (inputPath cwd options))) then
        if isSupportedFormat toLowerCase (inputPath cwd options)
             (supportedFormats (config cwd options))
        then stage cwd codec options fs1
        else (Err (unsupported_format_error cwd options), fs1)
      else (Err (missing_input_error cwd options), fs1)
  end.
Proof.
  unfold generateIconset, ensure_output_dir, stage, render, bind, existsSync, throw.
  fold (config cwd options). fold (outputDirPath cwd options).
  fold (inputPath cwd options). fold (iconsetPath cwd options).
  destruct (negb (bool_decide (is_Some (lookup_node fs (outputDirPath cwd options))))).
  - destruct (mkdir_recursive (outputDirPath cwd options) fs) as [[[]|e] fs1]; [|done].
    destruct (bool_decide (is_Some (lookup_node fs1 (inputPath cwd options)))); [|done].
    cbn [negb]. destruct (isSupportedFormat _ _); done.
  - cbn [negb ret].
    destruct (bool_decide (is_Some (lookup_node fs (inputPath cwd options)))); [|done].
    cbn [negb]. destruct (isSupportedFormat _ _); done.
Qed.

Lemma generateIcns_steps (cwd : Path) (toLowerCase : string → string) (codec : Codec)
    (iconutil : Path → Path → M unit) (options : Options) (fs : FS) :
  generateIcns cwd toLowerCase codec iconutil options fs =
  match ensure_output_dir (outputDirPath cwd options) fs with
  | (Err e, fs0) => (Err e, fs0)
  | (Ok _, fs0) =>
      match generateIconset cwd toLowerCase codec options fs0 with
      | (Err e, fs1) => (Err e, fs1)
      | (Ok iconsetResult, fs1) =>
          match iconutil iconsetResult (outputPath cwd options) fs1 with
          | (Err e, fs2) => (Err e, fs2)
          | (Ok _, fs2) =>
              match export_plain cwd options iconsetResult fs2 with
              | (Err e, fs3) => (Err e, fs3)
              | (Ok _, fs3) => (Ok (outputPath cwd options), fs3)
              end
          end
      end
  end.
Proof.
  unfold generateIcns, ensure_output_dir, export_plain, try_catch, throw, bind, existsSync.
  fold (config cwd options). fold (outputDirPath cwd options).
  fold (outputPath cwd options). fold (plainDir cwd options).
  destruct (negb (bool_decide (is_Some (lookup_node fs (outputDirPath cwd options)))));
    repeat run_step.
Qed.

Lemma stage_returns (cwd : Path) (codec : Codec) (options : Options) (fs fs' : FS)
    (ip : Path) :
  stage cwd codec options fs = (Ok ip, fs') → ip = iconsetPath cwd options.
Proof.
  unfold stage, bind, ret. unfold remove at 1.
  destruct (mkdir _ _) as [[[]|?] ?]; [|done].
  destruct (for_of allSizes _ _) as [[[]|?] ?]; [|done].
  by intros [= <- _].
Qed.

Lemma generateIconset_returns (cwd : Path) (toLowerCase : string → string) (codec : Codec)
    (options : Options) (fs fs' : FS) (ip : Path) :
  generateIconset cwd toLowerCase codec options fs = (Ok ip, fs') → ip = iconsetPath cwd options.
Proof.
  rewrite generateIconset_steps.
  destruct (ensure_output_dir _ _) as [[[]|?] ?]; [|done].
  case_bool_decide; [|done]. destruct (isSupportedFormat _ _); [|done].
  apply stage_returns.
Qed.


Lemma export_plain_outcome (cwd : Path) (options : Options) (ip : Path) (fs2 fs' : FS) :
  Forall ordinary ip →
  export_plain cwd options ip fs2 = (Ok tt, fs') →
  fs' !! plainDir cwd options = Some Dir ∧
  (∀ e, e ∈ allSizes →
     ∃ c, fs2 !! (ip ++ [name e]) = Some (File c) ∧
          fs' !! (plainDir cwd options ++ [strip_icon_prefix (name e)]) = Some (File c)) ∧
  (∀ q, plainDir cwd options `prefix_of` q → is_Some (fs' !! q) →
        q = plainDir cwd options ∨
        ∃ e, e ∈ allSizes ∧ q = plainDir cwd options ++ [strip_icon_prefix (name e)]) ∧
  (∀ q, ¬ plainDir cwd options `prefix_of` q → fs' !! q = fs2 !! q).
Proof.
  intros Hip. unfold export_plain, bind. unfold remove at 1.
  set (pd := plainDir cwd options).
  assert (Hpd : Forall ordinary pd) by apply path_resolve_normal.
  destruct (mkdir pd _) as [rm fs3] eqn:Hmk.
  apply mkdir_outcome in Hmk as [(-> & ->)|[[code ->] ->]]; [|done].
  intros Hloop.
  pose proof names_ordinary as Hnames. pose proof plain_names_ordinary as Hplain.
  rewrite Forall_forall in Hnames, Hplain.
  assert (Hsrc : ∀ e, e ∈ allSizes → path_join ip (name e) = ip ++ [name e])
    by (intros e He; apply path_join_ordinary; auto).
  assert (Hdest : ∀ e, e ∈ allSizes →
            path_join pd (strip_icon_prefix (name e)) = pd ++ [strip_icon_prefix (name e)])
    by (intros e He; apply path_join_ordinary; auto).
  apply copy_loop in Hloop as [Hcopied Hother].
  - assert (Hin : ∀ q, q ∈ (λ e, path_join pd (strip_icon_prefix (name e))) <$> allSizes →
                   ∃ e, e ∈ allSizes ∧ q = pd ++ [strip_icon_prefix (name e)]).
    { intros q (e & -> & He)%list_elem_of_fmap. exists e. split; [done|]. by apply Hdest. }
    split_and!.
    + rewrite Hother; [apply lookup_insert_eq|].
      intros (e & He & Heq)%Hin. symmetry in Heq. by apply snoc_ne_self in Heq.
    + intros e He. destruct (Hcopied e He) as (c & Hs & Hd).
      rewrite Hsrc, lookup_node_snoc in Hs by done. rewrite Hdest in Hd by done.
      exists c. split; [|done].
      destruct (decide (ip ++ [name e] = pd)) as [Heq|Hne].
      * rewrite Heq, lookup_insert_eq in Hs. done.
      * rewrite lookup_insert_ne in Hs by done.
        by apply map_lookup_filter_Some_1_1 in Hs.
    + intros q Hpre Hsome.
      destruct (decide (q ∈ (λ e, path_join pd (strip_icon_prefix (name e))) <$> allSizes))
        as [Hq|Hq]; [right; by apply Hin|].
      rewrite Hother in Hsome by done.
      destruct (decide (q = pd)) as [->|Hne]; [by left|].
      rewrite lookup_insert_ne, lookup_removed in Hsome by done.
      by destruct Hsome.
    + intros q Hpre. rewrite Hother.
      * rewrite lookup_insert_ne by (by intros <-). by apply lookup_kept.
      * intros (e & He & ->)%Hin. apply Hpre. by exists [strip_icon_prefix (name e)].
  - intros e e' He He'. rewrite Hsrc, Hdest by done.
    intros [_ Heq]%app_inj_tail.
    pose proof names_not_plain as Hnp. rewrite Forall_forall in Hnp.
    specialize (Hnp e He). rewrite Forall_forall in Hnp. by apply (Hnp e' He').
  - erewrite list_fmap_ext;
      [|intros i e Hi; apply Hdest; by eapply list_elem_of_lookup_2].
    change (λ e, pd ++ [strip_icon_prefix (name e)])
      with ((λ n, pd ++ [n]) ∘ (λ e, strip_icon_prefix (name e))).
    rewrite list_fmap_compose. apply NoDup_fmap_2; [|apply plain_names_distinct].
    intros n n' Heq. by apply app_inj_tail in Heq as [_ ?].
Qed.


Lemma ensure_output_dir_present (out : Path) (fs : FS) :
  is_Some (lookup_node fs out) → ensure_output_dir out fs = (Ok tt, fs).
Proof.
  intros Hsome. unfold ensure_output_dir, bind, existsSync.
  by rewrite bool_decide_eq_true_2.
Qed.

(** ** Rejection of the input *)

(** C2 (amended).  When the extension of the resolved input path is not in
    the allowlist the run fails, and it fails before the staging directory
    is touched: every entry of the file system is still there, and an entry
    that is new is a directory on the way to the output directory, created
    because the output directory was missing.  The error is one of the two
    input errors, or the error of creating the output directory.  When the
    output directory exists nothing changes at all, and the error is one of
    the two input errors. *)
Theorem unsupported_format_keeps_entries (cwd : Path) (toLowerCase : string → string)
    (codec : Codec) (options : Options) (fs fs' : FS) (r : Result Path) :
  toLowerCase (path_extname (inputPath cwd options))
    ∉ supportedFormats (config cwd options) →
  generateIconset cwd toLowerCase codec options fs = (r, fs') →
  (∃ e, r = Err e) ∧
  fs ⊆ fs' ∧
  (∀ p, fs !! p = None → is_Some (fs' !! p) →
        fs' !! p = Some Dir ∧ p `prefix_of` outputDirPath cwd options) ∧
  (r = Err (JsError ("Input file does not exist: "
                       +:+ path_to_string (inputPath cwd options)))
   ∨ r = Err (JsError ("Unsupported file format: "
                         +:+ path_extname (inputPath cwd options) +:+ "
Supported formats: "
                         +:+ String.concat ", " (supportedFormats (config cwd options))))
   ∨ ∃ code, r = Err (FsError code (outputDirPath cwd options))) ∧
  (is_Some (lookup_node fs (outputDirPath cwd options)) →
   fs' = fs ∧
   (r = Err (JsError ("Input file does not exist: "
                        +:+ path_to_string (inputPath cwd options)))
    ∨ r = Err (JsError ("Unsupported file format: "
                          +:+ path_extname (inputPath cwd options) +:+ "
Supported formats: "
                          +:+ String.concat ", " (supportedFormats (config cwd options)))))).
Proof.
  intros Hext Hrun. rewrite generateIconset_steps in Hrun.
  assert (Hunsup : isSupportedFormat toLowerCase (inputPath cwd options)
                     (supportedFormats (config cwd options)) = false)
    by (by apply bool_decide_eq_false_2).
  rewrite Hunsup in Hrun.
  destruct (ensure_output_dir (outputDirPath cwd options) fs) as [ro fs1] eqn:Hdir.
  apply ensure_output_dir_grows in Hdir as (Hsub & Hnew & Hr & Hpresent).
  assert (Hout : fs' = fs1 ∧ ∃ e, r = Err e).
  { destruct ro; [case_bool_decide|]; injection Hrun as <- <-; eauto. }
  destruct Hout as [-> Herr]. split_and!; [done|done|done| |].
  - destruct Hr as [->|[code ->]].
    + case_bool_decide; injection Hrun as <-; auto.
    + injection Hrun as <-. right. right. eauto.
  - intros Hsome. destruct (Hpresent Hsome) as [-> ->]. split; [done|].
    case_bool_decide; injection Hrun as <-; auto.
Qed.

Lemma unsupported_format_keeps_entries_witness :
  Scenario.fs_xyz
  ⊆ (generateIconset Scenario.cwd ascii_toLowerCase Scenario.codec
       (Scenario.with_input "a.xyz") Scenario.fs_xyz).2.
Proof.
  refine (proj1 (proj2
    (unsupported_format_keeps_entries Scenario.cwd ascii_toLowerCase Scenario.codec
       (Scenario.with_input "a.xyz") Scenario.fs_xyz _ _ _ _))).
  - apply (bool_decide_unpack _). vm_compute. exact I.
  - apply surjective_pairing.
Defined.

(** C2, as stated, fails: the run on [a.xyz] is refused, but by then it
    has created the output directory. *)
Lemma unsupported_format_creates_output_dir :
  (generateIconset Scenario.cwd ascii_toLowerCase Scenario.codec
     (Scenario.with_input "a.xyz") Scenario.fs_xyz).1
  = Err (JsError "Unsupported file format: .xyz
Supported formats: .png, .jpg, .jpeg, .webp, .tiff, .gif, .svg, .avif, .heif, .bmp") ∧
  Scenario.fs_xyz !! ["w"; "output"] = None ∧
  (generateIconset Scenario.cwd ascii_toLowerCase Scenario.codec
     (Scenario.with_input "a.xyz") Scenario.fs_xyz).2 !! ["w"; "output"] = Some Dir.
Proof. split_and!; vm_compute; reflexivity. Qed.





(** ** The plain export *)



(** ** The copy that [getSupportedFormats] returns *)

(** C10.  [getSupportedFormats] returns a new array: it is not the array
    of the default configuration, it holds the same elements, and the default
    array is as it was.  Whatever its holder then does to the returned array,
    the default array keeps its elements, and the next call again returns an
    array, different from the first, with those elements. *)
Theorem getSupportedFormats_fresh_copy (st : Arrays.Store) (formats : list string) :
  st !! Arrays.defaultConfig_supportedFormats = Some formats →
  let a := (Arrays.getSupportedFormats st).1 in
  let st1 := (Arrays.getSupportedFormats st).2 in
  a ≠ Arrays.defaultConfig_supportedFormats ∧
  st !! a = None ∧
  st1 !! a = Some formats ∧
  (∀ b, b ≠ a → st1 !! b = st !! b) ∧
  ∀ elems,
    let st2 := Arrays.mutate a elems st1 in
    st2 !! Arrays.defaultConfig_supportedFormats = Some formats ∧
    let b := (Arrays.getSupportedFormats st2).1 in
    b ≠ a ∧ b ≠ Arrays.defaultConfig_supportedFormats ∧
    (Arrays.getSupportedFormats st2).2 !! b = Some formats ∧
    (Arrays.getSupportedFormats st2).2 !! Arrays.defaultConfig_supportedFormats
    = Some formats.
Proof.
  intros Hdefault a st1.
  assert (Hfresh : st !! a = None).
  { apply not_elem_of_dom. apply is_fresh. }
  assert (Hne : a ≠ Arrays.defaultConfig_supportedFormats) by (intros Heq; congruence).
  assert (Hst1 : st1 = <[a := formats]> st).
  { unfold st1, a, Arrays.getSupportedFormats, Arrays.spread_array. simpl.
    by rewrite Hdefault. }
  split_and!; [done|done| | |].
  - rewrite Hst1. apply lookup_insert_eq.
  - intros b Hb. rewrite Hst1. by rewrite lookup_insert_ne.
  - intros elems st2.
    assert (Hst2 : st2 !! Arrays.defaultConfig_supportedFormats = Some formats).
    { unfold st2, Arrays.mutate. rewrite lookup_insert_ne by done.
      rewrite Hst1. by rewrite lookup_insert_ne. }
    split; [exact Hst2|]. intros b.
    assert (Hb : st2 !! b = None) by (apply not_elem_of_dom; apply is_fresh).
    assert (Hba : b ≠ a).
    { intros Heq. rewrite Heq in Hb. unfold st2, Arrays.mutate in Hb.
      by rewrite lookup_insert_eq in Hb. }
    assert (Hbd : b ≠ Arrays.defaultConfig_supportedFormats) by (intros Heq; congruence).
    assert (Hst3 : (Arrays.getSupportedFormats st2).2 = <[b := formats]> st2).
    { unfold b, Arrays.getSupportedFormats, Arrays.spread_array. simpl.
      by rewrite Hst2. }
    split_and!; [done|done| |].
    + rewrite Hst3. apply lookup_insert_eq.
    + rewrite Hst3. by rewrite lookup_insert_ne.
Qed.

Lemma getSupportedFormats_fresh_copy_witness :
  (Arrays.getSupportedFormats Arrays.loaded).2 !! (Arrays.getSupportedFormats Arrays.loaded).1
  = Some [".png"; ".jpg"; ".jpeg"; ".webp"; ".tiff"; ".gif"; ".svg"; ".avif";
          ".heif"; ".bmp"].
Proof.
  assert (H : Arrays.loaded !! Arrays.defaultConfig_supportedFormats
              = Some defaultSupportedFormats) by (vm_compute; reflexivity).
  exact (proj1 (proj2 (proj2
           (getSupportedFormats_fresh_copy Arrays.loaded defaultSupportedFormats H)))).
Defined.



(** ** What a run leaves in the staging directory *)

Lemma writeFile_outcome (p : Path) (c : Content) (fs fs' : FS) (r : Result unit) :
  writeFile p c fs = (r, fs') →
  (r = Ok tt ∧ fs' = <[p := File c]> fs) ∨ ((∃ e, r = Err e) ∧ fs' = fs).
Proof.
  unfold writeFile. intros Hrun.
  destruct (lookup_node fs (parent p)) as [[?|]|].
  - injection Hrun as <- <-. right. eauto.
  - destruct (lookup_node fs p) as [[?|]|]; injection Hrun as <- <-;
      [by left|right; eauto|by left].
  - injection Hrun as <- <-. right. eauto.
Qed.

Lemma render_step (codec : Codec) (input dest : Path) (sz : Z) (pad : float)
    (fs fs' : FS) (r : Result unit) :
  render codec input sz pad dest fs = (r, fs') →
  (r = Ok tt ∧
   ∃ s src bytes,
     createRoundedImage input sz pad = Ok s ∧
     lookup_node fs input = Some (File src) ∧
     codec src (Sharp.ops s) = Ok bytes ∧
     fs' = <[dest := File bytes]> fs)
  ∨ ((∃ e, r = Err e) ∧ fs' = fs).
Proof.
  unfold render, bind, lift, toFile.
  destruct (createRoundedImage input sz pad) as [s|e] eqn:Hcreate.
  - apply createRoundedImage_ok_inv in Hcreate as Hs.
    destruct Hs as (p & c & _ & _ & _ & _ & ->). simpl.
    destruct (lookup_node fs input) as [[src|]|] eqn:Hsrc.
    + destruct (codec src _) as [bytes|e] eqn:Hcodec.
      * intros [(-> & ->)|([e ->] & ->)]%writeFile_outcome; [left|right; eauto].
        split; [done|]. eauto 10.
      * intros [= <- <-]. right. eauto.
    + intros [= <- <-]. right. eauto.
    + intros [= <- <-]. right. eauto.
  - intros [= <- <-]. right. eauto.
Qed.

(** The rendering loop stops at the first entry that fails: the entries
    before it are written, in order, and nothing else changes. *)
Lemma render_loop (codec : Codec) (input : Path) (pad : float) (dest : IconSize → Path)
    (l : list IconSize) (fs fs' : FS) (r : Result unit) :
  for_of l (λ entry, render codec input (size entry) pad (dest entry)) fs = (r, fs') →
  (∀ e, e ∈ l → input ≠ dest e) →
  NoDup (dest <$> l) →
  ∃ k : nat,
    (r = Ok tt ∧ k = length l ∨ (∃ e, r = Err e) ∧ (k < length l)%nat) ∧
    (∀ q, q ∉ dest <$> take k l → fs' !! q = fs !! q) ∧
    (∀ e, e ∈ take k l →
       ∃ s src bytes,
         createRoundedImage input (size e) pad = Ok s ∧
         lookup_node fs input = Some (File src) ∧
         codec src (Sharp.ops s) = Ok bytes ∧
         fs' !! dest e = Some (File bytes)).
Proof.
  revert fs. induction l as [|a l IH]; intros fs Hrun Hinput Hnodup.
  - injection Hrun as <- <-. exists 0%nat. split; [by left|]. split; [done|].
    intros e He. by apply elem_of_nil in He.
  - rewrite for_of_cons in Hrun.
    destruct (render codec input (size a) pad (dest a) fs) as [ra fs1] eqn:Hstep.
    apply render_step in Hstep
      as [(-> & s & src & bytes & Hok & Hsrc & Hcodec & ->)|([e ->] & ->)].
    + rewrite fmap_cons in Hnodup. apply NoDup_cons in Hnodup as [Hfresh Hnodup].
      destruct (IH _ Hrun) as (k & Hk & Hframe & Hwritten); [|done|].
      { intros e He. apply Hinput, elem_of_cons. by right. }
      assert (Hsub : ∀ q, q ∈ dest <$> take k l → q ∈ dest <$> l).
      { intros q (e & -> & He)%list_elem_of_fmap. apply list_elem_of_fmap.
        exists e. split; [done|]. eapply subseteq_take, He. }
      exists (S k). split_and!.
      * destruct Hk as [[-> ->]|[He Hlt]]; [by left|right]. split; [done|]. simpl. lia.
      * intros q Hq. change (take (S k) (a :: l)) with (a :: take k l) in Hq.
        rewrite fmap_cons in Hq. apply not_elem_of_cons in Hq as [Hne Hq].
        rewrite Hframe by done. by rewrite lookup_insert_ne.
      * intros e He. change (take (S k) (a :: l)) with (a :: take k l) in He.
        apply elem_of_cons in He as [->|He].
        -- exists s, src, bytes. split; [done|]. split; [done|]. split; [done|].
           rewrite Hframe; [apply lookup_insert_eq|]. intros Hin. by apply Hfresh, Hsub.
        -- destruct (Hwritten e He) as (s' & src' & bytes' & Hok' & Hs & Hc & Hd).
           exists s', src', bytes'. split; [done|]. split; [|done].
           rewrite lookup_node_insert_ne in Hs; [done|].
           apply Hinput, elem_of_cons. by left.
    + injection Hrun as <- <-. exists 0%nat. split_and!.
      * right. split; [eauto|]. simpl. lia.
      * done.
      * intros e' He'. by apply elem_of_nil in He'.
Qed.

Lemma for_of_ext {A} (l : list A) (body body' : A → M unit) (fs : FS) :
  (∀ a, a ∈ l → body a = body' a) → for_of l body fs = for_of l body' fs.
Proof.
  revert fs. induction l as [|a l IH]; intros fs Hext; [done|].
  rewrite !for_of_cons, (Hext a) by (apply elem_of_cons; by left).
  destruct (body' a fs) as [[[]|?] ?]; [|done].
  apply IH. intros a' Ha'. apply Hext, elem_of_cons. by right.
Qed.

Lemma names_distinct : NoDup (name <$> allSizes).
Proof. apply (bool_decide_unpack _). vm_compute. exact I. Qed.

Lemma mkdir_succeeds (p : Path) (fs fs' : FS) :
  mkdir p fs = (Ok tt, fs') →
  fs' = <[p := Dir]> fs ∧ p ≠ [] ∧ fs !! p = None ∧ lookup_node fs (parent p) = Some Dir.
Proof.
  unfold mkdir. intros Hrun.
  destruct (lookup_node fs p) as [n|] eqn:Hp; [done|].
  destruct (lookup_node fs (parent p)) as [[c|]|] eqn:Hparent; [done| |done].
  injection Hrun as <-. destruct p; [done|]. done.
Qed.

Lemma prefix_snoc_ne (p : Path) (n : string) : ¬ (p ++ [n]) `prefix_of` p.
Proof.
  intros Hpre. apply prefix_length in Hpre. rewrite length_app in Hpre. simpl in Hpre. lia.
Qed.

(** What [stage] leaves, whatever its outcome: outside the staging
    directory nothing changes; inside, once the directory has been made
    anew, there are the first [k] entries of the table and nothing else. *)
Lemma stage_outcome (cwd : Path) (codec : Codec) (options : Options) (fs1 fs' : FS)
    (r : Result Path) :
  stage cwd codec options fs1 = (r, fs') →
  (∀ q, ¬ iconsetPath cwd options `prefix_of` q → fs' !! q = fs1 !! q) ∧
  (((∃ code, r = Err (FsError code (iconsetPath cwd options))) ∧
    ∀ q, iconsetPath cwd options `prefix_of` q → fs' !! q = None)
   ∨ (iconsetPath cwd options ≠ [] ∧
      lookup_node fs1 (parent (iconsetPath cwd options)) = Some Dir ∧
      ∃ k : nat,
        (r = Ok (iconsetPath cwd options) ∧ k = length allSizes
         ∨ (∃ e, r = Err e) ∧ (k < length allSizes)%nat) ∧
        fs' !! iconsetPath cwd options = Some Dir ∧
        (∀ q, iconsetPath cwd options `prefix_of` q → is_Some (fs' !! q) →
              q = iconsetPath cwd options ∨
              ∃ e, e ∈ take k allSizes ∧ q = iconsetPath cwd options ++ [name e]) ∧
        (∀ e, e ∈ take k allSizes →
           ∃ s src bytes,
             createRoundedImage (inputPath cwd options) (size e)
               (padding (config cwd options)) = Ok s ∧
             lookup_node fs1 (inputPath cwd options) = Some (File src) ∧
             ¬ iconsetPath cwd options `prefix_of` inputPath cwd options ∧
             codec src (Sharp.ops s) = Ok bytes ∧
             fs' !! (iconsetPath cwd options ++ [name e]) = Some (File bytes)))).
Proof.
  unfold stage, bind, ret. unfold remove at 1.
  set (ip := iconsetPath cwd options). set (input := inputPath cwd options).
  set (pad := padding (config cwd options)).
  set (fs2 := filter (λ kv : Path * Node, ¬ ip `prefix_of` kv.1) fs1).
  assert (Hip : Forall ordinary ip) by apply path_resolve_normal.
  destruct (mkdir ip fs2) as [[[]|e] fs3] eqn:Hmk.
  2: { apply mkdir_outcome in Hmk as [[[=] _]|[[code [= ->]] ->]].
       intros [= <- <-]. split.
       - intros q Hq. by apply lookup_kept.
       - left. split; [eauto|]. intros q Hq. by apply lookup_removed. }
  apply mkdir_succeeds in Hmk as (-> & Hne & Hnone & Hparent).
  pose proof names_ordinary as Hnames. rewrite Forall_forall in Hnames.
  assert (Hdest : ∀ e, e ∈ allSizes → path_join ip (name e) = ip ++ [name e])
    by (intros e He; apply path_join_ordinary; auto).
  rewrite (for_of_ext allSizes _ (λ entry,
             render codec input (size entry) pad (ip ++ [name entry]))).
  2: { intros e He. simpl. by rewrite Hdest. }
  destruct (for_of allSizes _ _) as [rl fs4] eqn:Hloop.
  assert (Hparent1 : lookup_node fs1 (parent ip) = Some Dir).
  { destruct (parent ip) as [|s rest] eqn:Hpar; [done|]. simpl in *.
    rewrite <- Hparent. symmetry. apply lookup_kept.
    rewrite <- Hpar. unfold parent.
    destruct (exists_last Hne) as (ip' & n & Heq). rewrite Heq, removelast_last.
    apply prefix_snoc_ne. }
  assert (Houtcome :
    ∃ k : nat,
      (rl = Ok tt ∧ k = length allSizes ∨ (∃ e, rl = Err e) ∧ (k < length allSizes)%nat) ∧
      (∀ q, q ∉ (λ e, ip ++ [name e]) <$> take k allSizes →
            fs4 !! q = (<[ip := Dir]> fs2) !! q) ∧
      (∀ e, e ∈ take k allSizes →
         ∃ s src bytes,
           createRoundedImage input (size e) pad = Ok s ∧
           lookup_node (<[ip := Dir]> fs2) input = Some (File src) ∧
           codec src (Sharp.ops s) = Ok bytes ∧
           fs4 !! (ip ++ [name e]) = Some (File bytes))).
  { destruct (decide (ip `prefix_of` input)) as [Hin|Hout].
    - (* the source lies in the staging directory: the first entry fails *)
      rewrite allSizes_first, for_of_cons in Hloop.
      destruct (render codec input _ pad _ (<[ip := Dir]> fs2)) as [ra fsa] eqn:Hstep.
      apply render_step in Hstep as [(-> & pl & src & bytes & _ & Hsrc & _)|([e ->] & ->)].
      + exfalso. destruct (decide (input = ip)) as [Heq|Hneq].
        * rewrite Heq in Hsrc. destruct ip; [done|]. simpl in Hsrc.
          by rewrite lookup_insert_eq in Hsrc.
        * rewrite lookup_node_insert_ne in Hsrc by done.
          destruct input as [|s rest] eqn:Hi; [done|]. simpl in Hsrc.
          unfold fs2 in Hsrc. by rewrite lookup_removed in Hsrc.
      + injection Hloop as <- <-. exists 0%nat. split_and!.
        * right. split; [eauto|]. change (length allSizes) with 14%nat. lia.
        * done.
        * intros e' He'. by apply elem_of_nil in He'.
    - apply render_loop in Hloop; [done| |].
      + intros e He Heq. apply Hout. rewrite Heq. by exists [name e].
      + change (λ e, ip ++ [name e]) with ((λ n, ip ++ [n]) ∘ name).
        rewrite list_fmap_compose. apply NoDup_fmap_2; [|apply names_distinct].
        intros n n' Heq. by apply app_inj_tail in Heq as [_ ?]. }
  destruct Houtcome as (k & Hk & Hframe & Hwritten).
  assert (Hin : ∀ q, q ∈ (λ e, ip ++ [name e]) <$> take k allSizes →
                 ∃ e, e ∈ take k allSizes ∧ q = ip ++ [name e]).
  { intros q (e & -> & He)%list_elem_of_fmap. eauto. }
  assert (Hresult : (r, fs') = match rl with
                               | Ok _ => (Ok ip, fs4)
                               | Err e => (Err e, fs4)
                               end → fs' = fs4 ∧
            (r = Ok ip ∧ k = length allSizes
             ∨ (∃ e, r = Err e) ∧ (k < length allSizes)%nat)).
  { destruct Hk as [[-> ->]|[[e ->] Hlt]]; intros [= -> ->]; split; eauto. }
  intros Hrun. symmetry in Hrun. apply Hresult in Hrun as [-> Hr]. clear Hresult.
  split.
  - intros q Hq. rewrite Hframe.
    + rewrite lookup_insert_ne by (by intros <-). by apply lookup_kept.
    + intros (e & _ & ->)%Hin. apply Hq. by exists [name e].
  - right. split; [done|]. split; [done|]. exists k. split; [done|]. split_and!.
    + rewrite Hframe; [apply lookup_insert_eq|].
      intros (e & _ & Heq)%Hin. symmetry in Heq. by apply snoc_ne_self in Heq.
    + intros q Hpre Hsome.
      destruct (decide (q ∈ (λ e, ip ++ [name e]) <$> take k allSizes)) as [Hq|Hq];
        [right; by apply Hin|].
      rewrite Hframe in Hsome by done.
      destruct (decide (q = ip)) as [->|Hneq]; [by left|].
      rewrite lookup_insert_ne in Hsome by done. unfold fs2 in Hsome.
      rewrite lookup_removed in Hsome by done. by destruct Hsome.
    + intros e He.
      destruct (Hwritten e He) as (pl & src & bytes & Hok & Hsrc & Hcodec & Hd).
      exists pl, src, bytes.
      assert (Hnotin : ¬ ip `prefix_of` input).
      { intros Hpre. destruct (decide (input = ip)) as [Heq|Hneq].
        - rewrite Heq in Hsrc. destruct ip; [done|]. simpl in Hsrc.
          by rewrite lookup_insert_eq in Hsrc.
        - rewrite lookup_node_insert_ne in Hsrc by done.
          destruct input as [|s rest] eqn:Hi; [done|]. simpl in Hsrc.
          unfold fs2 in Hsrc. by rewrite lookup_removed in Hsrc. }
      split_and!; [done| |done|done|done].
      rewrite lookup_node_insert_ne in Hsrc by (intros ->; by apply Hnotin).
      destruct input as [|s rest] eqn:Hi; [done|]. simpl in *.
      unfold fs2 in Hsrc. by rewrite lookup_kept in Hsrc.
Qed.


Lemma generateIconset_checked (cwd : Path) (toLowerCase : string → string)
    (codec : Codec) (options : Options) (fs fs1 : FS) :
  ensure_output_dir (outputDirPath cwd options) fs = (Ok tt, fs1) →
  is_Some (lookup_node fs1 (inputPath cwd options)) →
  isSupportedFormat toLowerCase (inputPath cwd options)
    (supportedFormats (config cwd options)) = true →
  generateIconset cwd toLowerCase codec options fs = stage cwd codec options fs1.
Proof.
  intros Hdir Hin Hfmt. rewrite generateIconset_steps, Hdir, Hfmt.
  by rewrite bool_decide_eq_true_2.
Qed.

(** Whatever its outcome, [generateIconset] removes and overwrites nothing
    outside the staging directory; what it may add there is directories on
    the way to the output directory. *)
Theorem generateIconset_keeps_outside (cwd : Path) (toLowerCase : string → string)
    (codec : Codec) (options : Options) (fs fs' : FS) (r : Result Path) (q : Path) :
  generateIconset cwd toLowerCase codec options fs = (r, fs') →
  ¬ iconsetPath cwd options `prefix_of` q →
  (∀ n, fs !! q = Some n → fs' !! q = Some n) ∧
  (fs !! q = None → is_Some (fs' !! q) →
   fs' !! q = Some Dir ∧ q `prefix_of` outputDirPath cwd options).
Proof.
  intros Hrun Hq. rewrite generateIconset_steps in Hrun.
  destruct (ensure_output_dir (outputDirPath cwd options) fs) as [ro fs1] eqn:Hdir.
  apply ensure_output_dir_grows in Hdir as (Hsub & Hnew & _ & _).
  assert (Hfs : fs' !! q = fs1 !! q).
  { destruct ro as [[]|e]; [|by injection Hrun as _ <-].
    case_bool_decide; [|by injection Hrun as _ <-].
    destruct (isSupportedFormat _ _); [|by injection Hrun as _ <-].
    apply stage_outcome in Hrun as [Hframe _]. by apply Hframe. }
  rewrite Hfs. split.
  - intros n Hn. eapply lookup_weaken; [exact Hn|exact Hsub].
  - apply Hnew.
Qed.

Lemma generateIconset_keeps_outside_witness :
  (generateIconset Scenario.cwd ascii_toLowerCase Scenario.codec (Scenario.with_padding 50)
     Scenario.fs_stale).2 !! ["w"; "icon.png"] = Some (File "src").
Proof.
  refine (proj1 (generateIconset_keeps_outside Scenario.cwd ascii_toLowerCase Scenario.codec
                   (Scenario.with_padding 50) Scenario.fs_stale _ _
                   ["w"; "icon.png"] _ _) (File "src") _).
  - apply surjective_pairing.
  - apply (bool_decide_unpack _). vm_compute. exact I.
  - reflexivity.
Defined.

(** A run that has passed the checks either cannot make the staging
    directory anew, and then leaves nothing at or below its path, or leaves
    in it the first [k] files of the table and nothing else, each holding
    what the codec made of the source for its pipeline: [k] is 14 when the
    run succeeds and less when it fails, and the files written before a
    failure stay. *)
Theorem staging_holds_a_prefix (cwd : Path) (toLowerCase : string → string)
    (codec : Codec) (options : Options) (fs fs1 fs' : FS) (r : Result Path) :
  ensure_output_dir (outputDirPath cwd options) fs = (Ok tt, fs1) →
  is_Some (lookup_node fs1 (inputPath cwd options)) →
  isSupportedFormat toLowerCase (inputPath cwd options)
    (supportedFormats (config cwd options)) = true →
  generateIconset cwd toLowerCase codec options fs = (r, fs') →
  ((∃ code, r = Err (FsError code (iconsetPath cwd options))) ∧
   ∀ q, iconsetPath cwd options `prefix_of` q → fs' !! q = None)
  ∨ (∃ k : nat,
       (r = Ok (iconsetPath cwd options) ∧ k = 14%nat
        ∨ (∃ e, r = Err e) ∧ (k < 14)%nat) ∧
       fs' !! iconsetPath cwd options = Some Dir ∧
       (∀ q, iconsetPath cwd options `prefix_of` q → is_Some (fs' !! q) →
             q = iconsetPath cwd options ∨
             ∃ e, e ∈ take k allSizes ∧ q = iconsetPath cwd options ++ [name e]) ∧
       (∀ e, e ∈ take k allSizes →
          ∃ s src bytes,
            createRoundedImage (inputPath cwd options) (size e)
              (padding (config cwd options)) = Ok s ∧
            lookup_node fs1 (inputPath cwd options) = Some (File src) ∧
            codec src (Sharp.ops s) = Ok bytes ∧
            fs' !! (iconsetPath cwd options ++ [name e]) = Some (File bytes))).
Proof.
  intros Hdir Hin Hfmt Hrun.
  rewrite (generateIconset_checked _ _ _ _ _ _ Hdir Hin Hfmt) in Hrun.
  apply stage_outcome in Hrun as [_ [Hfail|(_ & _ & k & Hk & Hd & Hinside & Hwritten)]].
  - by left.
  - right. exists k. split_and!; [done|done|done|].
    intros e He. destruct (Hwritten e He) as (s & src & bytes & Hok & Hs & _ & Hc & Hf).
    eauto 10.
Qed.

Lemma staging_holds_a_prefix_witness :
  (generateIconset Scenario.cwd ascii_toLowerCase Scenario.codec (Scenario.with_padding 50)
     Scenario.fs_stale).1
  = Err (InvalidParameter "width" "positive integer" (Int 0)) ∧
  Scenario.fs_stale !! ["w"; "output"; "icon.iconset"; "old.png"] = Some (File "old") ∧
  (generateIconset Scenario.cwd ascii_toLowerCase Scenario.codec (Scenario.with_padding 50)
     Scenario.fs_stale).2 !! ["w"; "output"; "icon.iconset"; "old.png"] = None.
Proof.
  set (run := generateIconset Scenario.cwd ascii_toLowerCase Scenario.codec
                (Scenario.with_padding 50) Scenario.fs_stale).
  assert (Hr : run.1 = Err (InvalidParameter "width" "positive integer" (Int 0)))
    by (vm_compute; reflexivity).
  split; [exact Hr|]. split; [reflexivity|].
  destruct (staging_holds_a_prefix Scenario.cwd ascii_toLowerCase Scenario.codec
              (Scenario.with_padding 50) Scenario.fs_stale Scenario.fs_stale run.2 run.1)
    as [[_ Hgone]|(k & _ & _ & Hinside & _)].
  - apply ensure_output_dir_present. apply (bool_decide_unpack _). vm_compute. exact I.
  - apply (bool_decide_unpack _). vm_compute. exact I.
  - vm_compute. reflexivity.
  - apply surjective_pairing.
  - apply Hgone. apply (bool_decide_unpack _). vm_compute. exact I.
  - destruct (run.2 !! ["w"; "output"; "icon.iconset"; "old.png"]) as [n|] eqn:Hold;
      [|reflexivity].
    exfalso.
    destruct (Hinside ["w"; "output"; "icon.iconset"; "old.png"])
      as [Heq|(e & He & Heq)].
    + apply (bool_decide_unpack _). vm_compute. exact I.
    + by eexists.
    + discriminate Heq.
    + apply subseteq_take in He.
      assert (Hname : name e ≠ "old.png").
      { revert He. generalize e. apply Forall_forall.
        apply (bool_decide_unpack _). vm_compute. exact I. }
      apply Hname.
      apply (app_inj_tail ["w"; "output"; "icon.iconset"] _ "old.png") in Heq as [_ Heq].
      by symmetry.
Defined.

(** When [generateIconset] returns, it returns the staging path; the source
    is a file outside the staging directory; the staging directory holds the
    fourteen files of the table, each with what the codec made of the source
    for the pipeline of its size, and nothing else (whatever was there before
    is gone); and outside of it the file system is as the output-directory
    step left it. *)
Theorem generateIconset_success (cwd : Path) (toLowerCase : string → string)
    (codec : Codec) (options : Options) (fs fs' : FS) (p : Path) :
  generateIconset cwd toLowerCase codec options fs = (Ok p, fs') →
  p = iconsetPath cwd options ∧
  ∃ fs1 src,
    ensure_output_dir (outputDirPath cwd options) fs = (Ok tt, fs1) ∧
    lookup_node fs1 (inputPath cwd options) = Some (File src) ∧
    ¬ iconsetPath cwd options `prefix_of` inputPath cwd options ∧
    fs' !! iconsetPath cwd options = Some Dir ∧
    (∀ e, e ∈ allSizes →
       ∃ s bytes,
         createRoundedImage (inputPath cwd options) (size e)
           (padding (config cwd options)) = Ok s ∧
         codec src (Sharp.ops s) = Ok bytes ∧
         fs' !! (iconsetPath cwd options ++ [name e]) = Some (File bytes)) ∧
    (∀ q, iconsetPath cwd options `prefix_of` q → is_Some (fs' !! q) →
          q = iconsetPath cwd options ∨
          ∃ e, e ∈ allSizes ∧ q = iconsetPath cwd options ++ [name e]) ∧
    (∀ q, ¬ iconsetPath cwd options `prefix_of` q → fs' !! q = fs1 !! q).
Proof.
  intros Hrun. rewrite generateIconset_steps in Hrun.
  destruct (ensure_output_dir (outputDirPath cwd options) fs) as [[[]|?] fs1] eqn:Hdir;
    [|done].
  case_bool_decide as Hin; [|done].
  destruct (isSupportedFormat _ _); [|done].
  apply stage_outcome in Hrun
    as [Hframe [[[code [=]] _]|(_ & _ & k & Hk & Hd & Hinside & Hwritten)]].
  destruct Hk as [[[= ->] ->]|[[e [=]] _]].
  rewrite firstn_all in Hinside, Hwritten.
  split; [done|].
  destruct (Hwritten {| name := "icon_16x16.png"; size := 16 |})
    as (_ & src & _ & _ & Hsrc & Hout & _).
  { apply (bool_decide_unpack _). vm_compute. exact I. }
  exists fs1, src. split_and!; [done|done|done|done| |done|done].
  intros e He. destruct (Hwritten e He) as (s & src' & bytes & Hok & Hsrc' & _ & Hc & Hf).
  assert (src' = src) by congruence. subst src'. eauto.
Qed.

Lemma generateIconset_success_witness :
  (generateIconset Scenario.cwd ascii_toLowerCase Scenario.codec no_options
     Scenario.fs_stale).1 = Ok ["w"; "output"; "icon.iconset"] ∧
  (generateIconset Scenario.cwd ascii_toLowerCase Scenario.codec no_options
     Scenario.fs_stale).2 !! ["w"; "output"; "icon.iconset"; "old.png"] = None ∧
  ∃ s bytes,
    createRoundedImage ["w"; "icon.png"] 16 8.75 = Ok s ∧
    Scenario.codec "src" (Sharp.ops s) = Ok bytes ∧
    (generateIconset Scenario.cwd ascii_toLowerCase Scenario.codec no_options
       Scenario.fs_stale).2
      !! ["w"; "output"; "icon.iconset"; "icon_16x16.png"] = Some (File bytes).
Proof.
  set (run := generateIconset Scenario.cwd ascii_toLowerCase Scenario.codec no_options
                Scenario.fs_stale).
  assert (Hr : run.1 = Ok ["w"; "output"; "icon.iconset"]) by (vm_compute; reflexivity).
  assert (Hrun : run = (Ok ["w"; "output"; "icon.iconset"], run.2)).
  { rewrite <- Hr. apply surjective_pairing. }
  split; [exact Hr|].
  destruct (generateIconset_success Scenario.cwd ascii_toLowerCase Scenario.codec no_options
              Scenario.fs_stale run.2 _ Hrun)
    as (_ & fs1 & src & Hdir & Hsrc & _ & _ & Hfiles & Hinside & _).
  rewrite ensure_output_dir_present in Hdir
    by (apply (bool_decide_unpack _); vm_compute; exact I).
  injection Hdir as <-. injection Hsrc as <-.
  split.
  - destruct (run.2 !! ["w"; "output"; "icon.iconset"; "old.png"]) as [n|] eqn:Hold;
      [|reflexivity].
    exfalso.
    destruct (Hinside ["w"; "output"; "icon.iconset"; "old.png"])
      as [Heq|(e & He & Heq)].
    + apply (bool_decide_unpack _). vm_compute. exact I.
    + by eexists.
    + discriminate Heq.
    + assert (Hname : name e ≠ "old.png").
      { revert He. generalize e. apply Forall_forall.
        apply (bool_decide_unpack _). vm_compute. exact I. }
      apply Hname.
      apply (app_inj_tail ["w"; "output"; "icon.iconset"] _ "old.png") in Heq as [_ Heq].
      by symmetry.
  - apply (Hfiles {| name := "icon_16x16.png"; size := 16 |}).
    apply (bool_decide_unpack _). vm_compute. exact I.
Defined.

(** ** A run with a padding that leaves no content *)

Lemma stage_rejected (cwd : Path) (codec : Codec) (options : Options) (fs1 fs' : FS)
    (r : Result Path) :
  nonpositive (contentSize 16 (padding (config cwd options))) →
  stage cwd codec options fs1 = (r, fs') →
  (∃ code, r = Err (FsError code (iconsetPath cwd options)))
  ∨ (r = Err (InvalidParameter "width" "positive integer"
                (contentSize 16 (padding (config cwd options))))
     ∧ fs' = <[iconsetPath cwd options := Dir]>
               (filter (λ kv, ¬ iconsetPath cwd options `prefix_of` kv.1) fs1)).
Proof.
  intros Hc. unfold stage, bind. unfold remove at 1.
  destruct (mkdir _ _) as [rm fs2] eqn:Hmk.
  apply mkdir_outcome in Hmk as [(-> & ->)|[[code ->] ->]].
  - rewrite allSizes_first, for_of_cons. unfold render, bind, lift. simpl size.
    rewrite createRoundedImage_rejected by done.
    intros Hrun. injection Hrun as <- <-. by right.
  - intros Hrun. injection Hrun as <- <-. left. eauto.
Qed.

(** A run of [generateIconset] whose padding leaves no content for the
    first size fails, and when it fails with the refusal of sharp's
    [resize] it has by then looked after the output directory and removed
    and made anew the staging directory: the failed run leaves the staging
    directory empty. *)
Theorem nonpositive_content_resets_staging (cwd : Path) (toLowerCase : string → string)
    (codec : Codec) (options : Options) (fs fs' : FS) (r : Result Path) :
  nonpositive (contentSize 16 (padding (config cwd options))) →
  generateIconset cwd toLowerCase codec options fs = (r, fs') →
  (∃ e, r = Err e) ∧
  (r = Err (InvalidParameter "width" "positive integer"
              (contentSize 16 (padding (config cwd options)))) →
   ∃ fs1, ensure_output_dir (outputDirPath cwd options) fs = (Ok tt, fs1) ∧
          fs' = <[iconsetPath cwd options := Dir]>
                  (filter (λ kv, ¬ iconsetPath cwd options `prefix_of` kv.1) fs1)).
Proof.
  intros Hc Hrun. rewrite generateIconset_steps in Hrun.
  destruct (ensure_output_dir (outputDirPath cwd options) fs) as [[[]|e] fs1] eqn:Hdir.
  - case_bool_decide as Hin.
    + destruct (isSupportedFormat _ _ _).
      * apply (stage_rejected _ _ _ _ _ _ Hc) in Hrun as [(code & ->)|[-> ->]].
        -- split; [eauto|]. intros [=].
        -- split; [eauto|]. intros _. eauto.
      * injection Hrun as <- <-. split; [eauto|]. intros [=].
    + injection Hrun as <- <-. split; [eauto|]. intros [=].
  - injection Hrun as <- <-. split; [eauto|]. intros [= ->].
    apply ensure_output_dir_grows in Hdir as (_ & _ & [[=]|(code & [=])] & _).
Qed.

Lemma nonpositive_content_resets_staging_witness :
  Scenario.fs_stale !! ["w"; "output"; "icon.iconset"; "old.png"] = Some (File "old") ∧
  (generateIconset Scenario.cwd ascii_toLowerCase Scenario.codec (Scenario.with_padding 50)
     Scenario.fs_stale).1
  = Err (InvalidParameter "width" "positive integer" (Int 0)) ∧
  (generateIconset Scenario.cwd ascii_toLowerCase Scenario.codec (Scenario.with_padding 50)
     Scenario.fs_stale).2
  = <[ ["w"; "output"; "icon.iconset"] := Dir ]>
      (filter (λ kv, ¬ ["w"; "output"; "icon.iconset"] `prefix_of` kv.1) Scenario.fs_stale).
Proof.
  set (run := generateIconset Scenario.cwd ascii_toLowerCase Scenario.codec
                (Scenario.with_padding 50) Scenario.fs_stale).
  assert (Hr : run.1 = Err (InvalidParameter "width" "positive integer" (Int 0)))
    by (vm_compute; reflexivity).
  split; [reflexivity|]. split; [exact Hr|].
  assert (Hc : nonpositive (contentSize 16 (padding (config Scenario.cwd
                                                       (Scenario.with_padding 50)))))
    by (vm_compute; discriminate).
  destruct (proj2 (nonpositive_content_resets_staging Scenario.cwd ascii_toLowerCase
                     Scenario.codec (Scenario.with_padding 50) Scenario.fs_stale run.2 run.1
                     Hc (surjective_pairing run)) Hr) as (fs1 & Hdir & Hfs).
  rewrite ensure_output_dir_present in Hdir
    by (apply (bool_decide_unpack _); vm_compute; exact I).
  injection Hdir as <-. exact Hfs.
Defined.


(** ** Running again *)

Lemma mkdir_recursive_go_made (target made todo : list string) (fs fs' : FS) :
  mkdir_recursive_go target made todo fs = (Ok tt, fs') →
  todo ≠ [] → fs' !! (made ++ todo) = Some Dir.
Proof.
  revert made fs. induction todo as [|s rest IH]; intros made fs Hrun Hne; [done|].
  simpl in Hrun.
  destruct (fs !! (made ++ [s])) as [[c|]|] eqn:Hq; [done| |].
  - destruct rest as [|s' rest].
    + simpl in Hrun. by injection Hrun as <-.
    + apply IH in Hrun; [|done]. by rewrite <- app_assoc in Hrun.
  - destruct rest as [|s' rest].
    + simpl in Hrun. injection Hrun as <-. apply lookup_insert_eq.
    + apply IH in Hrun; [|done]. by rewrite <- app_assoc in Hrun.
Qed.

Lemma ensure_output_dir_made (out : Path) (fs fs' : FS) :
  ensure_output_dir out fs = (Ok tt, fs') → is_Some (lookup_node fs' out).
Proof.
  unfold ensure_output_dir, bind, existsSync.
  case_bool_decide as Hex; simpl.
  - by intros [= <-].
  - intros Hrun. destruct out as [|s rest]; [by eexists|].
    apply mkdir_recursive_go_made in Hrun; [|done]. simpl in *. rewrite Hrun. by eexists.
Qed.

Lemma lookup_node_eq (fs fs' : FS) (q : Path) :
  fs' !! q = fs !! q → lookup_node fs' q = lookup_node fs q.
Proof. intros Heq. by destruct q. Qed.

(** [stage] starts by removing the staging directory, so it does the same
    on two file systems that agree outside of it. *)
Lemma stage_outside (cwd : Path) (codec : Codec) (options : Options) (fs fs' : FS) :
  (∀ q, ¬ iconsetPath cwd options `prefix_of` q → fs' !! q = fs !! q) →
  stage cwd codec options fs' = stage cwd codec options fs.
Proof.
  intros Hsame. unfold stage, bind. unfold remove at 1 2.
  replace (filter (λ kv : Path * Node, ¬ iconsetPath cwd options `prefix_of` kv.1) fs')
    with (filter (λ kv : Path * Node, ¬ iconsetPath cwd options `prefix_of` kv.1) fs);
    [done|].
  apply map_eq. intros q.
  destruct (decide (iconsetPath cwd options `prefix_of` q)) as [Hin|Hout].
  - by rewrite !lookup_removed.
  - rewrite !lookup_kept by done. symmetry. by apply Hsame.
Qed.

(** After a run that succeeded, with the staging directory at or below the
    output directory, the same run on the file system it left succeeds again
    and leaves that file system as it is. *)
Theorem generateIconset_again (cwd : Path) (toLowerCase : string → string)
    (codec : Codec) (options : Options) (fs fs' : FS) (p : Path) :
  outputDirPath cwd options `prefix_of` iconsetPath cwd options →
  generateIconset cwd toLowerCase codec options fs = (Ok p, fs') →
  generateIconset cwd toLowerCase codec options fs' = (Ok p, fs').
Proof.
  intros Hbelow Hrun. rewrite generateIconset_steps in Hrun.
  destruct (ensure_output_dir (outputDirPath cwd options) fs) as [[[]|?] fs1] eqn:Hdir;
    [|done].
  case_bool_decide as Hin; [|done].
  destruct (isSupportedFormat _ _) eqn:Hfmt; [|done].
  pose proof Hrun as Hstage.
  apply stage_outcome in Hrun
    as [Hframe [[[code [=]] _]|(Hne & _ & k & Hk & Hd & _ & Hwritten)]].
  destruct Hk as [[_ ->]|[[e [=]] _]]. rewrite firstn_all in Hwritten.
  destruct (Hwritten {| name := "icon_16x16.png"; size := 16 |})
    as (_ & src & _ & _ & Hsrc & Hout & _).
  { apply (bool_decide_unpack _). vm_compute. exact I. }
  rewrite (generateIconset_checked _ _ _ _ fs' fs'); [|..|done].
  - rewrite <- Hstage. by apply stage_outside.
  - apply ensure_output_dir_present.
    destruct (decide (iconsetPath cwd options `prefix_of` outputDirPath cwd options))
      as [Habove|Hnot].
    + assert (Heq : outputDirPath cwd options = iconsetPath cwd options).
      { apply prefix_length_eq; [done|]. by apply prefix_length. }
      rewrite Heq. destruct (iconsetPath cwd options); [done|]. simpl. by rewrite Hd.
    + rewrite (lookup_node_eq fs1) by (by apply Hframe).
      by apply ensure_output_dir_made in Hdir.
  - rewrite (lookup_node_eq fs1) by (by apply Hframe). done.
Qed.

Lemma generateIconset_again_witness :
  (generateIconset Scenario.cwd ascii_toLowerCase Scenario.codec no_options
     Scenario.fs_fresh).1 = Ok ["w"; "output"; "icon.iconset"] ∧
  generateIconset Scenario.cwd ascii_toLowerCase Scenario.codec no_options
    (generateIconset Scenario.cwd ascii_toLowerCase Scenario.codec no_options
       Scenario.fs_fresh).2
  = (Ok ["w"; "output"; "icon.iconset"],
     (generateIconset Scenario.cwd ascii_toLowerCase Scenario.codec no_options
        Scenario.fs_fresh).2).
Proof.
  set (run := generateIconset Scenario.cwd ascii_toLowerCase Scenario.codec no_options
                Scenario.fs_fresh).
  assert (Hr : run.1 = Ok ["w"; "output"; "icon.iconset"]) by (vm_compute; reflexivity).
  assert (Hrun : run = (Ok ["w"; "output"; "icon.iconset"], run.2)).
  { rewrite <- Hr. apply surjective_pairing. }
  split; [exact Hr|].
  apply (generateIconset_again Scenario.cwd ascii_toLowerCase Scenario.codec no_options
           Scenario.fs_fresh).
  - apply (bool_decide_unpack _). vm_compute. exact I.
  - exact Hrun.
Defined.

(** ** A source inside the staging directory *)

(** When the source lies in the staging directory the run cannot succeed,
    and once it has passed the checks the source is gone: the staging
    directory is emptied before the source is read. *)
Theorem source_in_staging_is_lost (cwd : Path) (toLowerCase : string → string)
    (codec : Codec) (options : Options) (fs fs' : FS) (r : Result Path) :
  iconsetPath cwd options `prefix_of` inputPath cwd options →
  generateIconset cwd toLowerCase codec options fs = (r, fs') →
  (∃ e, r = Err e) ∧
  ∀ fs1,
    ensure_output_dir (outputDirPath cwd options) fs = (Ok tt, fs1) →
    is_Some (lookup_node fs1 (inputPath cwd options)) →
    isSupportedFormat toLowerCase (inputPath cwd options) (supportedFormats (config cwd options))
    = true →
    inputPath cwd options ≠ iconsetPath cwd options →
    fs' !! inputPath cwd options = None.
Proof.
  intros Hinside Hrun.
  assert (Hstage : ∀ fs1 r fs',
            stage cwd codec options fs1 = (r, fs') →
            (∃ e, r = Err e) ∧
            (inputPath cwd options ≠ iconsetPath cwd options →
             fs' !! inputPath cwd options = None)).
  { clear Hrun. intros fs1 r0 fs0 Hst.
    apply stage_outcome in Hst
      as [_ [[[code ->] Hgone]|(_ & _ & k & Hk & _ & Hin & Hwritten)]].
    - split; [eauto|]. intros _. by apply Hgone.
    - rename fs0 into fsx. assert (Hnone : ∀ e, e ∉ take k allSizes).
      { intros e He. by destruct (Hwritten e He) as (_ & _ & _ & _ & _ & Hout & _). }
      split.
      + destruct Hk as [[_ ->]|[He _]]; [|done].
        rewrite firstn_all in Hnone.
        exfalso. apply (Hnone {| name := "icon_16x16.png"; size := 16 |}).
        apply (bool_decide_unpack _). vm_compute. exact I.
      + intros Hneq. destruct (fsx !! inputPath cwd options) as [n|] eqn:Hl; [|done].
        destruct (Hin (inputPath cwd options) Hinside) as [?|(e & He & _)];
          [by eexists|done|]. by apply Hnone in He. }
  rewrite generateIconset_steps in Hrun.
  destruct (ensure_output_dir (outputDirPath cwd options) fs) as [[[]|?] fs1] eqn:Hdir.
  - case_bool_decide as Hin.
    + destruct (isSupportedFormat _ _) eqn:Hfmt.
      * apply Hstage in Hrun as [Herr Hgone]. split; [done|].
        intros fs1' [= <-] _ _ Hneq. by apply Hgone.
      * injection Hrun as <- <-. split; [eauto|]. intros fs1' _ _ Hfmt'. congruence.
    + injection Hrun as <- <-. split; [eauto|]. intros fs1' [= <-] Hsome. done.
  - injection Hrun as <- <-. split; [eauto|]. intros fs1' [=].
Qed.

Lemma source_in_staging_is_lost_witness :
  Overlap.fs_source_in_staging !! ["w"; "output"; "icon.iconset"; "icon.png"]
  = Some (File "src") ∧
  (generateIconset Scenario.cwd ascii_toLowerCase Scenario.codec Overlap.source_in_staging
     Overlap.fs_source_in_staging).2 !! ["w"; "output"; "icon.iconset"; "icon.png"]
  = None.
Proof.
  split; [reflexivity|].
  refine (proj2 (source_in_staging_is_lost Scenario.cwd ascii_toLowerCase Scenario.codec
                   Overlap.source_in_staging Overlap.fs_source_in_staging _ _ _ _)
            Overlap.fs_source_in_staging _ _ _ _).
  - apply (bool_decide_unpack _). vm_compute. exact I.
  - apply surjective_pairing.
  - apply ensure_output_dir_present. apply (bool_decide_unpack _). vm_compute. exact I.
  - apply (bool_decide_unpack _). vm_compute. exact I.
  - vm_compute. reflexivity.
  - discriminate.
Defined.


(** ** The plain export against the other paths *)

Lemma export_plain_needs_staged (cwd : Path) (options : Options) (ip : Path)
    (fs2 fs' : FS) :
  Forall ordinary ip →
  export_plain cwd options ip fs2 = (Ok tt, fs') →
  ¬ plainDir cwd options `prefix_of` ip.
Proof.
  intros Hip Hrun Hinside. revert Hrun.
  unfold export_plain, bind. unfold remove at 1.
  set (pd := plainDir cwd options) in *.
  destruct (mkdir pd _) as [rm fs3] eqn:Hmk.
  apply mkdir_outcome in Hmk as [(-> & ->)|[[code ->] ->]]; [|done].
  rewrite allSizes_first, for_of_cons. simpl name.
  rewrite (path_join_ordinary ip "icon_16x16.png")
    by (done || by apply (bool_decide_unpack _)).
  destruct (copyFile _ _ _) as [[[]|?] fs4] eqn:Hcopy; [|done].
  apply copyFile_outcome in Hcopy as (c & Hsrc & _).
  rewrite lookup_node_snoc in Hsrc.
  rewrite lookup_insert_ne in Hsrc.
  - rewrite lookup_removed in Hsrc; [done|].
    destruct Hinside as [rest ->]. exists (rest ++ ["icon_16x16.png"]).
    by rewrite <- app_assoc.
  - intros Heq. rewrite Heq in Hinside. by apply prefix_snoc_ne in Hinside.
Qed.

(** When the staging directory is the plain export directory, or lies in
    it, [generateIcns] cannot succeed: the export starts by removing its
    directory, and the staged files with it. *)
Theorem staging_in_plain_export_fails (cwd : Path) (toLowerCase : string → string)
    (codec : Codec) (iconutil : Path → Path → M unit) (options : Options) (fs fs' : FS)
    (r : Result Path) :
  plainDir cwd options `prefix_of` iconsetPath cwd options →
  generateIcns cwd toLowerCase codec iconutil options fs = (r, fs') →
  ∃ e, r = Err e.
Proof.
  intros Hinside. rewrite generateIcns_steps.
  destruct (ensure_output_dir _ _) as [[[]|?] fs0]; [|intros [= <- _]; eauto].
  destruct (generateIconset cwd toLowerCase codec options fs0) as [[ip|?] fs1] eqn:Hset;
    [|intros [= <- _]; eauto].
  apply generateIconset_returns in Hset. subst ip.
  destruct (iconutil _ _ fs1) as [[[]|?] fs2]; [|intros [= <- _]; eauto].
  destruct (export_plain cwd options (iconsetPath cwd options) fs2)
    as [[[]|?] fs3] eqn:Hplain; [|intros [= <- _]; eauto].
  exfalso. apply export_plain_needs_staged in Hplain; [done|].
  apply path_resolve_normal.
Qed.

Lemma staging_in_plain_export_fails_witness :
  ∃ e,
    (generateIcns Scenario.cwd ascii_toLowerCase Scenario.codec Scenario.iconutil
       Overlap.staging_named_icons Scenario.fs_fresh).1 = Err e.
Proof.
  apply (staging_in_plain_export_fails Scenario.cwd ascii_toLowerCase Scenario.codec
           Scenario.iconutil
           Overlap.staging_named_icons Scenario.fs_fresh
           (generateIcns Scenario.cwd ascii_toLowerCase Scenario.codec Scenario.iconutil
              Overlap.staging_named_icons Scenario.fs_fresh).2).
  - apply (bool_decide_unpack _). vm_compute. exact I.
  - apply surjective_pairing.
Defined.

(** When the packaged file is to be written where the plain export goes,
    the path that a successful [generateIcns] returns is a directory: the
    export has removed the packaged file and made its directory there. *)
Theorem output_at_plain_export_is_directory (cwd : Path) (toLowerCase : string → string)
    (codec : Codec) (iconutil : Path → Path → M unit) (options : Options) (fs fs' : FS)
    (p : Path) :
  outputPath cwd options = plainDir cwd options →
  generateIcns cwd toLowerCase codec iconutil options fs = (Ok p, fs') →
  p = outputPath cwd options ∧ fs' !! p = Some Dir.
Proof.
  intros Hsame. rewrite generateIcns_steps.
  destruct (ensure_output_dir _ _) as [[[]|?] fs0]; [|done].
  destruct (generateIconset cwd toLowerCase codec options fs0) as [[ip|?] fs1] eqn:Hset; [|done].
  apply generateIconset_returns in Hset. subst ip.
  destruct (iconutil _ _ fs1) as [[[]|?] fs2]; [|done].
  destruct (export_plain cwd options (iconsetPath cwd options) fs2)
    as [[[]|?] fs3] eqn:Hplain; [|done].
  intros [= <- <-]. split; [done|].
  apply export_plain_outcome in Hplain as (Hdir & _); [|apply path_resolve_normal].
  by rewrite Hsame.
Qed.

Lemma output_at_plain_export_is_directory_witness :
  (generateIcns Scenario.cwd ascii_toLowerCase Scenario.codec Scenario.iconutil
     Overlap.output_named_icons Scenario.fs_fresh).1 = Ok ["w"; "output"; "icons"] ∧
  (generateIcns Scenario.cwd ascii_toLowerCase Scenario.codec Scenario.iconutil
     Overlap.output_named_icons Scenario.fs_fresh).2 !! ["w"; "output"; "icons"]
  = Some Dir.
Proof.
  set (run := generateIcns Scenario.cwd ascii_toLowerCase Scenario.codec Scenario.iconutil
                Overlap.output_named_icons Scenario.fs_fresh).
  assert (Hr : run.1 = Ok ["w"; "output"; "icons"]) by (vm_compute; reflexivity).
  assert (Hrun : run = (Ok ["w"; "output"; "icons"], run.2)).
  { rewrite <- Hr. apply surjective_pairing. }
  split; [exact Hr|].
  apply (output_at_plain_export_is_directory Scenario.cwd ascii_toLowerCase Scenario.codec
           Scenario.iconutil Overlap.output_named_icons Scenario.fs_fresh).
  - reflexivity.
  - exact Hrun.
Defined.
